(** * convert_checkpoint: a checkpoint-to-raw-files converter

    A shallow embedding of [cmd/convert_checkpoint.py] and the proofs of
    the properties its specification states.

    Python values are modelled as follows.
    - [str] is [string] (a byte string: text is identified with its UTF-8
      encoding) and [bytes] is [list byte];
    - a non-negative [int] (a dimension of a shape) is [N];
    - an array is a record of what the script reads from it: the name of
      its dtype, its shape and the bytes [tobytes()] returns;
    - the parameter PyTree is a tree of dictionaries with arrays at the
      leaves, each dictionary listing its items in the order in which
      [jax.tree_util] visits them;
    - code that touches the file system runs in a state-and-exception
      monad over a [world]: the directory tree, the journal of the
      operations performed so far, and what was printed. *)

From Stdlib Require Import Ascii Strings.Byte NArith DecimalString DecimalN.
From Stdlib Require String.
From stdpp Require Import base option list gmap strings.

Local Open Scope char_scope.
Local Open Scope stdpp_scope.

(** ** Strings *)

Module Str.

(** [s.startswith(c)] for a one-character [c]. *)
Definition startswith (c : ascii) (s : string) : bool :=
  match s with
  | String a _ => Ascii.eqb a c
  | EmptyString => false
  end.

(** [s.endswith(c)] for a one-character [c]. *)
Fixpoint endswith (c : ascii) (s : string) : bool :=
  match s with
  | EmptyString => false
  | String a EmptyString => Ascii.eqb a c
  | String _ s' => endswith c s'
  end.

(** [bool(s)]: a string is truthy when it is not empty. *)
Definition nonempty (s : string) : bool :=
  match s with
  | EmptyString => false
  | String _ _ => true
  end.

(** [c in s]. *)
Fixpoint contains (c : ascii) (s : string) : bool :=
  match s with
  | EmptyString => false
  | String a s' => Ascii.eqb a c || contains c s'
  end.

(** [s == c * len(s)]. *)
Fixpoint all_char (c : ascii) (s : string) : bool :=
  match s with
  | EmptyString => true
  | String a s' => Ascii.eqb a c && all_char c s'
  end.

(** [s.rstrip(c)]. *)
Fixpoint rstrip (c : ascii) (s : string) : string :=
  match s with
  | EmptyString => EmptyString
  | String a s' =>
      match rstrip c s' with
      | EmptyString => if Ascii.eqb a c then EmptyString else String a EmptyString
      | r => String a r
      end
  end.

(** [(s[:i], s[i:])] for [i = s.rfind(c) + 1]: the cut is after the
    last occurrence of [c], or at the start when there is none. *)
Fixpoint rcut (c : ascii) (s : string) : string * string :=
  match s with
  | EmptyString => (EmptyString, EmptyString)
  | String a s' =>
      let '(h, t) := rcut c s' in
      if nonempty h then (String a h, t)
      else if Ascii.eqb a c then (String a EmptyString, t)
      else (EmptyString, String a t)
  end.

(** [(s[:i], s[i:])] for [i = s.find(c)], or [(s, "")] when [c] does
    not occur. *)
Fixpoint cut (c : ascii) (s : string) : string * string :=
  match s with
  | EmptyString => (EmptyString, EmptyString)
  | String a s' =>
      if Ascii.eqb a c then (EmptyString, s)
      else let '(h, t) := cut c s' in (String a h, t)
  end.

(** [s.split(c)]: the fields between the occurrences of [c]; there is
    always at least one field. *)
Fixpoint split (c : ascii) (s : string) : list string :=
  match s with
  | EmptyString => [EmptyString]
  | String a s' =>
      if Ascii.eqb a c then EmptyString :: split c s'
      else match split c s' with
           | f :: fs => String a f :: fs
           | [] => [String a EmptyString]
           end
  end.


(** [sep.join(fields)]. *)
Definition join (sep : string) (fields : list string) : string :=
  String.concat sep fields.

End Str.

(** [str(i)] for a non-negative integer: its decimal digits. *)
Definition str_int (i : N) : string :=
  NilEmpty.string_of_uint (N.to_uint i).

(** [int(s)] on a string of decimal digits; [None] stands for the
    [ValueError] raised on anything else. *)
Definition int_of_str (s : string) : option N :=
  match s with
  | EmptyString => None
  | _ => N.of_uint <$> NilEmpty.uint_of_string s
  end.

(** [s.encode()]: the bytes written for a text. *)
Definition encode (s : string) : list byte := String.list_byte_of_string s.

(** ** Paths: the functions of [os.path] the script calls (POSIX) *)

Module os_path.

Definition sep : ascii := "/".

(** One turn of the loop of [os.path.join]: an absolute segment
    restarts the path, another one is appended, after a separator
    unless the path is empty or ends with one. *)
Definition join_step (path b : string) : string :=
  if Str.startswith sep b then b
  else if negb (Str.nonempty path) || Str.endswith sep path then path +:+ b
  else path +:+ "/" +:+ b.

(** [os.path.join(a, *p)]. *)
Definition join (a : string) (p : list string) : string :=
  fold_left join_step p a.

(** [os.path.split(p)]: cut after the last separator, and strip the
    trailing separators of the head unless it consists of separators
    only. *)
Definition split (p : string) : string * string :=
  let '(head, tail) := Str.rcut sep p in
  if Str.nonempty head && negb (Str.all_char sep head)
  then (Str.rstrip sep head, tail)
  else (head, tail).

(** [os.path.dirname(p)]. *)
Definition dirname (p : string) : string := fst (split p).

End os_path.

(** ** Arrays and the shape descriptor *)

(** What the script reads from a leaf array. *)
Record ndarray := Ndarray {
  dtype : string;          (* str(array.dtype) *)
  shape : list N;          (* array.shape *)
  tobytes : list byte;     (* array.tobytes() *)
}.

(** [serialize_shape(array)]. *)
Definition serialize_shape (array : ndarray) : string :=
  Str.join "," (dtype array :: map str_int (shape array)).

(** ** The parameter tree and its flattening *)

(** A PyTree of arrays: a leaf, or a dictionary whose items are listed
    in the order in which [jax.tree_util] visits them. *)
#[local] Unset Elimination Schemes.
Inductive pytree :=
| Leaf (array : ndarray)
| Dict (items : list (string * pytree)).
#[local] Set Elimination Schemes.

(** [jax.tree_util.DictKey]. *)
Record DictKey := { key : string }.

Definition keypath := list DictKey.

(** The traversal underneath [jax.tree_util.tree_map_with_path]: the
    leaves, each with the key path that leads to it, are collected
    depth first, appended to those already found. *)
Fixpoint flatten_with_path_from (prefix : keypath) (tree : pytree)
    (found : list (keypath * ndarray)) : list (keypath * ndarray) :=
  match tree with
  | Leaf array => found ++ [(prefix, array)]
  | Dict items =>
      fold_left
        (fun found '(k, child) =>
           flatten_with_path_from (prefix ++ [{| key := k |}]) child found)
        items found
  end.

(** [jax.tree_util.tree_map_with_path(f, tree)], for an [f] called for
    its effect on a state [S]: [f] is applied to every leaf and its key
    path, in flattening order.  (The tree of results is not modelled: the
    script discards it.) *)
Definition tree_map_with_path {S : Type} (f : keypath -> ndarray -> S -> S)
    (tree : pytree) (s : S) : S :=
  fold_left (fun s '(path, leaf) => f path leaf s)
            (flatten_with_path_from [] tree []) s.

(** [path_to_str_tuple(path)]. *)
Definition path_to_str_tuple (path : keypath) : list string :=
  map key path.

(** [flatten_params(params)]: the local list, and the closure that
    appends to it. *)
Definition append_to_list (path : keypath) (value : ndarray)
    (list_ : list (list string * ndarray)) : list (list string * ndarray) :=
  list_ ++ [(path_to_str_tuple path, value)].

Definition flatten_params (params : pytree) : list (list string * ndarray) :=
  tree_map_with_path append_to_list params [].

(** ** The world and the monad of effects *)

(** What a path names: a directory, or a regular file and its content. *)
Inductive entry :=
| Directory
| File (content : list byte).

(** The file-system operations that were carried out. *)
Inductive event :=
| EvMkdir (path : string)
| EvOpen (path : string)
| EvWrite (path : string) (data : list byte)
| EvClose (path : string).

(** The exceptions that can end a run.  All but the last two are
    [OSError]s; [OSError] itself stands for the failures that do not
    depend on the directory tree (permission denied, disk full). *)
Inductive exn :=
| FileNotFoundError
| FileExistsError
| IsADirectoryError
| NotADirectoryError
| OSError
| RecursionError
| LoaderError (message : string).

Definition is_OSError (e : exn) : bool :=
  match e with
  | FileNotFoundError | FileExistsError | IsADirectoryError
  | NotADirectoryError | OSError => true
  | RecursionError | LoaderError _ => false
  end.

(** The state a run acts on.  The directory tree [disk] maps a path, in
    normal form, to what it names; the root directory always exists and
    is not stored.  [faults] is the host's say on each operation, given
    the operations carried out so far: [true] makes it fail with
    [OSError] whatever the directory tree holds. *)
Record world := World {
  disk : gmap string entry;
  journal : list event;
  faults : list event -> event -> bool;
  stdout : list string;
  jax_platform_name : option string;
}.

Inductive outcome (A : Type) :=
| Ok (a : A)
| Raise (e : exn).
Arguments Ok {A} a.
Arguments Raise {A} e.

Definition io (A : Type) : Type := world -> world * outcome A.

Definition ret {A : Type} (a : A) : io A := fun w => (w, Ok a).

Definition raise {A : Type} (e : exn) : io A := fun w => (w, Raise e).

Definition bind {A B : Type} (m : io A) (k : A -> io B) : io B :=
  fun w =>
    match m w with
    | (w', Ok a) => k a w'
    | (w', Raise e) => (w', Raise e)
    end.

Declare Scope io_scope.
Delimit Scope io_scope with io.
Bind Scope io_scope with io.
Notation "x <- m ;; k" := (bind m (fun x => k))
  (at level 100, m at next level, k at level 200, right associativity) : io_scope.
Notation "m ;; k" := (bind m (fun _ => k))
  (at level 100, k at level 200, right associativity) : io_scope.
Local Open Scope io_scope.

(** [try: m  except: handler(e)]. *)
Definition try_except {A : Type} (m : io A) (handler : exn -> io A) : io A :=
  fun w =>
    match m w with
    | (w', Ok a) => (w', Ok a)
    | (w', Raise e) => handler e w'
    end.

(** [try: m  finally: cleanup]: the cleanup runs on both exits; an
    exception of the cleanup takes the place of the outcome of [m]. *)
Definition finally {A : Type} (m : io A) (cleanup : io unit) : io A :=
  fun w =>
    match m w with
    | (w1, r) =>
        match cleanup w1 with
        | (w2, Ok _) => (w2, r)
        | (w2, Raise e) => (w2, Raise e)
        end
    end.

(** [for x in xs: body(x)]. *)
Fixpoint for_each {A : Type} (xs : list A) (body : A -> io unit) : io unit :=
  match xs with
  | [] => ret tt
  | x :: xs' => body x ;; for_each xs' body
  end.

(** [os.stat]: the root always is a directory, and the empty path names
    nothing. *)
Definition stat (d : gmap string entry) (path : string) : option entry :=
  if Str.nonempty path then
    if Str.all_char os_path.sep path then Some Directory else d !! path
  else None.

(** The directory a new entry at [path] goes into has to exist: the
    error the kernel reports when it does not.  A path without a
    directory part is relative to the working directory. *)
Definition parent_error (d : gmap string entry) (path : string) : option exn :=
  let head := os_path.dirname path in
  if Str.nonempty head then
    match stat d head with
    | Some Directory => None
    | Some (File _) => Some NotADirectoryError
    | None => Some FileNotFoundError
    end
  else None.

(** A system call: it fails when the host says so, or when the directory
    tree does not allow it; otherwise it takes effect and is recorded. *)
Definition syscall (ev : event) (error : gmap string entry -> option exn)
    (effect : gmap string entry -> gmap string entry) : io unit :=
  fun w =>
    if faults w (journal w) ev then (w, Raise OSError)
    else match error (disk w) with
         | Some e => (w, Raise e)
         | None =>
             (World (effect (disk w)) (journal w ++ [ev]) (faults w)
                    (stdout w) (jax_platform_name w), Ok tt)
         end.

(** [os.path.exists(path)] and [os.path.isdir(path)]. *)
Definition present (d : gmap string entry) (path : string) : bool :=
  match stat d path with
  | Some _ => true
  | None => false
  end.

Definition is_directory (d : gmap string entry) (path : string) : bool :=
  match stat d path with
  | Some Directory => true
  | _ => false
  end.

Definition path_exists (path : string) : io bool :=
  fun w => (w, Ok (present (disk w) path)).

Definition path_isdir (path : string) : io bool :=
  fun w => (w, Ok (is_directory (disk w) path)).

Module os.

(** [os.mkdir(name)]. *)
Definition mkdir (name : string) : io unit :=
  syscall (EvMkdir name)
    (fun d =>
       if negb (Str.nonempty name) then Some FileNotFoundError
       else match parent_error d name with
            | Some e => Some e
            | None => if present d name then Some FileExistsError else None
            end)
    (fun d => <[name := Directory]> d).

(** The end of [os.makedirs(name, exist_ok=True)]:
    [try: mkdir(name)  except OSError: if not isdir(name): raise]. *)
Definition mkdir_exist_ok (name : string) : io unit :=
  try_except (mkdir name)
    (fun e =>
       if is_OSError e then
         is_dir <- path_isdir name ;;
         if is_dir then ret tt else raise e
       else raise e).

(** [os.makedirs(name, exist_ok=True)], the recursion on the head of
    the path bounded by [fuel]. *)
Fixpoint makedirs_rec (fuel : nat) (name : string) : io unit :=
  let '(head, tail) := os_path.split name in
  let '(head, tail) :=
    if Str.nonempty tail then (head, tail) else os_path.split head in
  missing <- (if Str.nonempty head && Str.nonempty tail
              then found <- path_exists head ;; ret (negb found)
              else ret false) ;;
  if missing then
    match fuel with
    | O => raise RecursionError
    | S fuel' =>
        try_except (makedirs_rec fuel' head)
          (fun e => match e with
                    | FileExistsError => ret tt
                    | _ => raise e
                    end) ;;
        if String.eqb tail "." then ret tt else mkdir_exist_ok name
    end
  else mkdir_exist_ok name.

(** The head of a path is shorter than the path, so its length is fuel
    enough (see [makedirs_unfold]). *)
Definition makedirs (name : string) : io unit :=
  makedirs_rec (String.length name) name.

End os.

(** [open(path, 'w')] and [open(path, 'wb')]: the file is created, or
    truncated when it exists.  The file object is modelled by the path
    it was opened on. *)
Definition open_w (path : string) : io string :=
  syscall (EvOpen path)
    (fun d =>
       if negb (Str.nonempty path) then Some FileNotFoundError
       else match parent_error d path with
            | Some e => Some e
            | None =>
                match stat d path with
                | Some Directory => Some IsADirectoryError
                | _ => None
                end
            end)
    (fun d => <[path := File []]> d) ;;
  ret path.

(** [f.write(data)]: the data goes after what the file holds. *)
Definition write (f : string) (data : list byte) : io unit :=
  syscall (EvWrite f data)
    (fun _ => None)
    (fun d =>
       match d !! f with
       | Some (File content) => <[f := File (content ++ data)]> d
       | _ => d
       end).

(** [f.close()]. *)
Definition close (f : string) : io unit :=
  syscall (EvClose f) (fun _ => None) (fun d => d).

(** [with open(path, mode) as f: body(f)]. *)
Definition with_open (path : string) (body : string -> io unit) : io unit :=
  f <- open_w path ;;
  finally (body f) (close f).

(** [print(line)]. *)
Definition print (line : string) : io unit :=
  fun w =>
    (World (disk w) (journal w) (faults w) (stdout w ++ [line])
           (jax_platform_name w), Ok tt).

(** [jax.config.update('jax_platform_name', value)]. *)
Definition jax_config_update_platform (value : string) : io unit :=
  fun w =>
    (World (disk w) (journal w) (faults w) (stdout w) (Some value), Ok tt).

(** ** The script *)

(** The body of the loop of [write_params], for the pair [leaf] of the
    flattened tree and the base directory already expanded. *)
Definition write_leaf (base_dir : string) (leaf : list string * ndarray)
    : io unit :=
  let '(path, array) := leaf in
  let base_file_path := os_path.join base_dir path in
  os.makedirs (os_path.dirname base_file_path) ;;
  with_open (base_file_path +:+ ".raw") (fun f =>
    write f (tobytes array)) ;;
  with_open (base_file_path +:+ ".shape") (fun f =>
    write f (encode (serialize_shape array))).

(** The parsed command line: [--target_dir] is [None] when it is not
    given. *)
Record namespace := Namespace {
  args_source_dir : string;
  args_target_dir : option string;
}.

(** [bool(x)] for an optional string: [None] and [""] are falsy. *)
Definition truthy (x : option string) : bool :=
  match x with
  | Some s => Str.nonempty s
  | None => false
  end.

Section Script.

(** The collaborators: [os.path.expanduser] and [os.path.abspath],
    which depend on the environment of the process, and the loader of
    the [gemma] package, which reads the checkpoint from the disk. *)
Variable expanduser : string -> string.
Variable abspath : string -> string.
Variable load_and_format_params :
  string -> gmap string entry -> outcome pytree.

(** [read_parameter(path)]. *)
Definition read_parameter (path : string) : io pytree :=
  let path := expanduser path in
  fun w => (w, load_and_format_params path (disk w)).

(** [write_params(params, base_dir)]. *)
Definition write_params (params : pytree) (base_dir : string) : io unit :=
  let base_dir := expanduser base_dir in
  for_each (flatten_params params) (write_leaf base_dir).

(** The two directories [main] resolves. *)
Definition resolve_source_dir (args : namespace) : string :=
  abspath (expanduser (args_source_dir args)).

Definition resolve_target_dir (args : namespace) : string :=
  let source_dir := resolve_source_dir args in
  if truthy (args_target_dir args)
  then abspath (expanduser (default "" (args_target_dir args)))
  else os_path.join source_dir ["raw"].

(** [main()], after [parser.parse_args()]. *)
Definition main (args : namespace) : io unit :=
  let source_dir := resolve_source_dir args in
  let target_dir := resolve_target_dir args in
  print "Conversion from Jax/Orbax Gemma checkpoint to raw arrays/shapes:" ;;
  print ("	Source directory: " +:+ source_dir) ;;
  print ("	Target directory: " +:+ target_dir) ;;
  jax_config_update_platform "cpu" ;;
  params <- read_parameter source_dir ;;
  write_params params target_dir.

End Script.

(** ** A POSIX host

    [os.path.expanduser] and [os.path.abspath] on a host whose
    environment sets [HOME] to [home], whose password database knows no
    other user, and whose working directory is [cwd]. *)

Module posix.

(** [os.path.expanduser(path)]. *)
Definition expanduser (home : string) (path : string) : string :=
  match path with
  | String "~" rest =>
      let '(name, tail) := Str.cut os_path.sep rest in
      if Str.nonempty name then path
      else
        let expanded := Str.rstrip os_path.sep home +:+ tail in
        if Str.nonempty expanded then expanded else "/"
  | _ => path
  end.

(** [os.path.normpath(path)]. *)
Definition normpath (path : string) : string :=
  if negb (Str.nonempty path) then "."
  else
    let initial_slashes :=
      match path with
      | String "/" (String "/" (String "/" _)) => "/"
      | String "/" (String "/" _) => "//"
      | String "/" _ => "/"
      | _ => ""
      end in
    let new_comps :=
      fold_left
        (fun new_comps comp =>
           if String.eqb comp "" || String.eqb comp "." then new_comps
           else if negb (String.eqb comp "..")
                   || (negb (Str.nonempty initial_slashes)
                       && bool_decide (new_comps = []))
                   || bool_decide (last new_comps = Some "..")
                then new_comps ++ [comp]
                else removelast new_comps)
        (Str.split os_path.sep path) [] in
    let path := initial_slashes +:+ Str.join "/" new_comps in
    if Str.nonempty path then path else ".".

(** [os.path.abspath(path)]. *)
Definition abspath (cwd : string) (path : string) : string :=
  if Str.startswith os_path.sep path then normpath path
  else normpath (os_path.join cwd [path]).

End posix.

(** ** Notions of the specification *)

(** The leaves of a tree, each with the keys from the root down to it:
    depth first, the items of a dictionary in their order. *)
Fixpoint leaves (tree : pytree) : list (list string * ndarray) :=
  match tree with
  | Leaf array => [([], array)]
  | Dict items =>
      flat_map
        (fun '(k, child) => map (fun '(path, array) => (k :: path, array))
                                (leaves child))
        items
  end.

(** The key path of a leaf, from the keys that lead to it. *)
Definition keypath_of (prefix : keypath) (leaf : list string * ndarray)
    : keypath * ndarray :=
  (prefix ++ map Build_DictKey (fst leaf), snd leaf).

(** [leaf_at tree path array]: following the keys of [path] from the
    root of [tree] ends at the leaf [array]. *)
Inductive leaf_at : pytree -> list string -> ndarray -> Prop :=
| leaf_here array : leaf_at (Leaf array) [] array
| leaf_below items k child path array :
    In (k, child) items ->
    leaf_at child path array ->
    leaf_at (Dict items) (k :: path) array.

Fixpoint num_leaves (tree : pytree) : nat :=
  match tree with
  | Leaf _ => 1
  | Dict items => list_sum (map (fun '(_, child) => num_leaves child) items)
  end.

(** A dictionary holds each key once. *)
Fixpoint unique_keys (tree : pytree) : bool :=
  match tree with
  | Leaf _ => true
  | Dict items =>
      bool_decide (NoDup (map fst items))
      && forallb (fun '(_, child) => unique_keys child) items
  end.

(** A key that makes one segment of a path: not empty and without a
    separator. *)
Definition is_segment (k : string) : bool :=
  Str.nonempty k && negb (Str.contains os_path.sep k).

(** A key that is the name of one directory entry: a segment other than
    the two names every directory reserves. *)
Definition plain_name (k : string) : bool :=
  is_segment k && negb (String.eqb k ".") && negb (String.eqb k "..").

(** Every key of the tree satisfies [P]. *)
Fixpoint keys_all (P : string -> bool) (tree : pytree) : bool :=
  match tree with
  | Leaf _ => true
  | Dict items => forallb (fun '(k, child) => P k && keys_all P child) items
  end.

(** What [os.path.join] puts between a path and the segment it appends. *)
Definition glue (path : string) : string :=
  if negb (Str.nonempty path) || Str.endswith os_path.sep path then ""
  else "/".

(** Distinct leaves of the tree get distinct file stems under [root]. *)
Definition distinct_stems (tree : pytree) (root : string) : Prop :=
  forall p a q b,
    In (p, a) (flatten_params tree) -> In (q, b) (flatten_params tree) ->
    p <> q -> os_path.join root p <> os_path.join root q.

(** A base-10 numeral without sign, separators or leading zeros. *)
Definition is_digit (c : ascii) : bool :=
  (48 <=? nat_of_ascii c)%nat && (nat_of_ascii c <=? 57)%nat.

Fixpoint all_digits (s : string) : bool :=
  match s with
  | EmptyString => true
  | String c s' => is_digit c && all_digits s'
  end.

Definition is_decimal (s : string) : bool :=
  match s with
  | EmptyString => false
  | String "0" EmptyString => true
  | String c _ => negb (Ascii.eqb c "0") && all_digits s
  end.

(** Reading a shape file back: the fields between the commas, the first
    as the dtype name, the others as integers. *)
Definition parse_shape (line : string) : option (string * list N) :=
  match Str.split "," line with
  | name :: dims => dims' ← mapM int_of_str dims; Some (name, dims')
  | [] => None
  end.

(** The round trip of the shape descriptor: reading back what was
    serialized gives the dtype name and the shape of the array. *)
Definition shape_round_trip (array : ndarray) : Prop :=
  parse_shape (serialize_shape array) = Some (dtype array, shape array).

(** The two files of a leaf, and those of a list of leaves: the path and
    the content of each, in the order in which they are written. *)
Definition exports_of (base_dir : string) (leaf : list string * ndarray)
    : list (string * list byte) :=
  let base_file_path := os_path.join base_dir (fst leaf) in
  [ (base_file_path +:+ ".raw", tobytes (snd leaf));
    (base_file_path +:+ ".shape", encode (serialize_shape (snd leaf))) ].

Definition exports (base_dir : string) (l : list (list string * ndarray))
    : list (string * list byte) :=
  flat_map (exports_of base_dir) l.

(** The content last written to [path]. *)
Fixpoint last_write (ws : list (string * list byte)) (path : string)
    : option (list byte) :=
  match ws with
  | [] => None
  | (q, data) :: ws' =>
      match last_write ws' path with
      | Some data' => Some data'
      | None => if String.eqb q path then Some data else None
      end
  end.

(** Every leaf of the tree has its two files in the directory tree [d],
    with the bytes of the array and with its shape descriptor. *)
Definition every_leaf_exported (base_dir : string) (params : pytree)
    (d : gmap string entry) : Prop :=
  forall path array,
    In (path, array) (flatten_params params) ->
    d !! (os_path.join base_dir path +:+ ".raw") = Some (File (tobytes array))
    /\ d !! (os_path.join base_dir path +:+ ".shape")
       = Some (File (encode (serialize_shape array))).

(** The directory of a leaf exists, and so do its two files. *)
Definition ready (base_dir : string) (leaf : list string * ndarray)
    (d : gmap string entry) : Prop :=
  let stem := os_path.join base_dir (fst leaf) in
  is_directory d (os_path.dirname stem) = true
  /\ (exists content, d !! (stem +:+ ".raw") = Some (File content))
  /\ (exists content, d !! (stem +:+ ".shape") = Some (File content)).

(** The directory tree is closed under parents: whatever is stored has a
    name, and lies in a directory (or in the working directory). *)
Definition wf_disk (d : gmap string entry) : Prop :=
  forall path e, d !! path = Some e ->
    Str.nonempty path = true /\ parent_error d path = None.

(** The world after further operations [evs] that leave the directory
    tree as [d]. *)
Definition advance (w : world) (d : gmap string entry) (evs : list event)
    : world :=
  World d (journal w ++ evs) (faults w) (stdout w) (jax_platform_name w).

(** [d'] keeps what [d] holds: nothing is removed and nothing changes
    from a directory to a file or back. *)
Definition extends (d d' : gmap string entry) : Prop :=
  forall path,
    match d !! path with
    | Some Directory => d' !! path = Some Directory
    | Some (File _) => exists content, d' !! path = Some (File content)
    | None => True
    end.

(** [d'] is [d] with new directories. *)
Definition grows (d d' : gmap string entry) : Prop :=
  forall path,
    d' !! path = d !! path
    \/ (d !! path = None /\ d' !! path = Some Directory).

(** A file can be created or truncated at [path]. *)
Definition writable (d : gmap string entry) (path : string) : Prop :=
  Str.nonempty path = true
  /\ parent_error d path = None
  /\ stat d path <> Some Directory.

Definition is_mkdir (ev : event) : Prop :=
  match ev with
  | EvMkdir _ => True
  | _ => False
  end.

(** From [w] to [w'] directories were made, and nothing else was done. *)
Definition mkdirs_only (w w' : world) : Prop :=
  exists d j,
    w' = advance w d j
    /\ grows (disk w) d
    /\ Forall is_mkdir j
    /\ (wf_disk (disk w) -> wf_disk d).

(** The journal of a [with open(path, mode) as f: f.write(data)] that
    ran to its end, and of one that failed after the file was opened. *)
Definition written (path : string) (data : list byte) : list event :=
  [EvOpen path; EvWrite path data; EvClose path].

Definition cut_short (path : string) (data : list byte) (j : list event)
    : Prop :=
  j = [EvOpen path]
  \/ j = [EvOpen path; EvClose path]
  \/ j = [EvOpen path; EvWrite path data].

(** The host makes some operation fail, after some operations. *)
Definition faulty (w : world) : Prop :=
  exists j ev, faults w j ev = true.

(** The ways in which the export of one leaf can end: the directory
    could not be made; the raw file could not be opened, or its writing
    was cut short; the same for the shape file, the raw file written; or
    both files were written. *)
Inductive leaf_run (base_dir : string) (leaf : list string * ndarray)
    (w : world) : world -> outcome unit -> Prop :=
| run_no_directory w1 e :
    os.makedirs (os_path.dirname (os_path.join base_dir (fst leaf))) w
    = (w1, Raise e) ->
    leaf_run base_dir leaf w w1 (Raise e)
| run_raw_refused w1 e :
    os.makedirs (os_path.dirname (os_path.join base_dir (fst leaf))) w
    = (w1, Ok tt) ->
    (e = OSError /\ faulty w)
    \/ ~ writable (disk w1) (os_path.join base_dir (fst leaf) +:+ ".raw") ->
    leaf_run base_dir leaf w w1 (Raise e)
| run_raw_cut_short w1 content j :
    let raw := os_path.join base_dir (fst leaf) +:+ ".raw" in
    os.makedirs (os_path.dirname (os_path.join base_dir (fst leaf))) w
    = (w1, Ok tt) ->
    writable (disk w1) raw ->
    faulty w ->
    cut_short raw (tobytes (snd leaf)) j ->
    leaf_run base_dir leaf w
      (advance w1 (<[raw := File content]> (disk w1)) j) (Raise OSError)
| run_shape_refused w1 e :
    let raw := os_path.join base_dir (fst leaf) +:+ ".raw" in
    let d2 := <[raw := File (tobytes (snd leaf))]> (disk w1) in
    os.makedirs (os_path.dirname (os_path.join base_dir (fst leaf))) w
    = (w1, Ok tt) ->
    writable (disk w1) raw ->
    (e = OSError /\ faulty w)
    \/ ~ writable d2 (os_path.join base_dir (fst leaf) +:+ ".shape") ->
    leaf_run base_dir leaf w
      (advance w1 d2 (written raw (tobytes (snd leaf)))) (Raise e)
| run_shape_cut_short w1 content j :
    let raw := os_path.join base_dir (fst leaf) +:+ ".raw" in
    let shp := os_path.join base_dir (fst leaf) +:+ ".shape" in
    let d2 := <[raw := File (tobytes (snd leaf))]> (disk w1) in
    os.makedirs (os_path.dirname (os_path.join base_dir (fst leaf))) w
    = (w1, Ok tt) ->
    writable (disk w1) raw ->
    writable d2 shp ->
    faulty w ->
    cut_short shp (encode (serialize_shape (snd leaf))) j ->
    leaf_run base_dir leaf w
      (advance w1 (<[shp := File content]> d2)
         (written raw (tobytes (snd leaf)) ++ j))
      (Raise OSError)
| run_done w1 :
    let raw := os_path.join base_dir (fst leaf) +:+ ".raw" in
    let shp := os_path.join base_dir (fst leaf) +:+ ".shape" in
    let d2 := <[raw := File (tobytes (snd leaf))]> (disk w1) in
    os.makedirs (os_path.dirname (os_path.join base_dir (fst leaf))) w
    = (w1, Ok tt) ->
    writable (disk w1) raw ->
    writable d2 shp ->
    leaf_run base_dir leaf w
      (advance w1 (<[shp := File (encode (serialize_shape (snd leaf)))]> d2)
         (written raw (tobytes (snd leaf))
          ++ written shp (encode (serialize_shape (snd leaf)))))
      (Ok tt).

(** In the journal [j] of a run over the leaves [l], a shape file is
    opened only right after the raw file of the same stem, that of a
    leaf of [l], was opened, written with the bytes of the leaf and
    closed. *)
Definition raw_before_shape (base_dir : string)
    (l : list (list string * ndarray)) (j : list event) : Prop :=
  forall before after stem,
    j = before ++ EvOpen (stem +:+ ".shape") :: after ->
    exists path array before',
      In (path, array) l
      /\ stem = os_path.join base_dir path
      /\ before = before' ++ [ EvOpen (stem +:+ ".raw");
                              EvWrite (stem +:+ ".raw") (tobytes array);
                              EvClose (stem +:+ ".raw") ].

(** What the export of a leaf adds to the journal, after the
    directories. *)
Definition leaf_journal (base_dir : string) (leaf : list string * ndarray)
    (j : list event) : Prop :=
  let raw := os_path.join base_dir (fst leaf) +:+ ".raw" in
  let shp := os_path.join base_dir (fst leaf) +:+ ".shape" in
  let text := encode (serialize_shape (snd leaf)) in
  j = [] \/ cut_short raw (tobytes (snd leaf)) j
  \/ j = written raw (tobytes (snd leaf))
  \/ (exists js, j = written raw (tobytes (snd leaf)) ++ js
                 /\ (cut_short shp text js \/ js = written shp text)).

(** The journal of a run, and what it says of the disk at its end: the
    order of [raw_before_shape], and the raw file of every shape file
    that was opened. *)
Definition journal_ok (base_dir : string) (l : list (list string * ndarray))
    (w w' : world) : Prop :=
  exists j,
    journal w' = journal w ++ j
    /\ raw_before_shape base_dir l j
    /\ (forall stem, In (EvOpen (stem +:+ ".shape")) j ->
          exists content, disk w' !! (stem +:+ ".raw") = Some (File content)).

(** A host without faults. *)
Definition quiet (w : world) : Prop :=
  forall j ev, faults w j ev = false.

(** A directory under which paths are joined with one separator: the
    root, or a path that does not end with a separator. *)
Definition anchored (root : string) : bool :=
  Str.nonempty root
  && (Str.all_char os_path.sep root || negb (Str.endswith os_path.sep root)).

(** A string without NUL byte.  On a path with one, [os.mkdir] and
    [open] raise [ValueError] before they reach the file system; the
    host of this development has no such paths, and the statements
    about runs that reach their end are for keys without NUL byte. *)
Definition no_nul (s : string) : bool := negb (Str.contains "000" s).

(** The levels of directories for which the statements about runs that
    reach their end are made.  [os.makedirs] calls itself once for each
    missing level, and CPython stops a recursion at 1000 frames by
    default; the host of this development does not bound the
    recursion. *)
Definition makedirs_levels : nat := 500.







(** The run reached its end, or was stopped by the host, not by the
    state of the directory tree. *)
Definition done_or_host_fault (w : world) (r : outcome unit) : Prop :=
  r = Ok tt \/ (r = Raise OSError /\ faulty w).

(** The operations of a journal on files: those that make no directory. *)
Definition is_mkdirb (ev : event) : bool :=
  match ev with
  | EvMkdir _ => true
  | _ => false
  end.

Definition file_events (j : list event) : list event :=
  List.filter (fun ev => negb (is_mkdirb ev)) j.

(** The journal of the files [ws] when each is opened, written at once
    with its content and closed, one after the other. *)
Definition all_written (ws : list (string * list byte)) : list event :=
  flat_map (fun '(path, data) => written path data) ws.


(** ** Examples *)

(** The tree of the scenario of the specification: the 2x2 array
    [[1.0, 2.0], [3.0, 4.0]] of 32-bit floats, little endian. *)
Definition scenario_tree : pytree :=
  Dict [("layer0",
         Dict [("w", Leaf (Ndarray "float32" [2%N; 2%N]
                             [x00; x00; x80; x3f; x00; x00; x00; x40;
                              x00; x00; x40; x40; x00; x00; x80; x40]))])].


(** An empty disk on a host without faults. *)
Definition fresh_world : world := World ∅ [] (fun _ _ => false) [] None.

(** An empty disk on a host that refuses to open one shape file. *)
Definition shape_refused_world : world :=
  World ∅ []
        (fun _ ev => match ev with
                     | EvOpen path => String.eqb path "/out/layer0/w.shape"
                     | _ => false
                     end)
        [] None.

(** A loader that finds no checkpoint. *)
Definition no_checkpoint (path : string) (d : gmap string entry)
    : outcome pytree :=
  Raise (LoaderError "no checkpoint").

(** A loader that finds the checkpoint of the scenario. *)
Definition scenario_checkpoint (path : string) (d : gmap string entry)
    : outcome pytree :=
  Ok scenario_tree.

(** A tree without arrays. *)
Definition hollow_tree : pytree :=
  Dict [("layer0", Dict []); ("layer1", Dict [("attn", Dict [])])].

(** A disk on which the target of the scenario is a regular file, on a
    host without faults. *)
Definition occupied_world : world :=
  World {[ "/out" := File [] ]} [] (fun _ _ => false) [] None.


(** A tree of three arrays. *)
Definition three_leaf_tree : pytree :=
  Dict [("a", Leaf (Ndarray "int8" [1%N] [x01]));
        ("b", Leaf (Ndarray "int8" [2%N] [x02; x03]));
        ("c", Leaf (Ndarray "int8" [1%N] [x04]))].

(** A disk that holds a file of the user and files of an earlier export,
    on a host that refuses to open the shape file of [b]. *)
Definition stocked_world : world :=
  World (<["/out" := Directory]>
           (<["/out/notes.txt" := File [x68; x69]]>
              (<["/out/b.shape" := File (encode "int8,7")]>
                 (<["/out/c.raw" := File [x09]]> ∅))))
        []
        (fun _ ev => match ev with
                     | EvOpen path => String.eqb path "/out/b.shape"
                     | _ => false
                     end)
        [] None.

(** Names JAX gives the dtypes of its arrays. *)
Definition jax_dtype_names : list string :=
  [ "bool"; "int4"; "int8"; "int16"; "int32"; "int64";
    "uint4"; "uint8"; "uint16"; "uint32"; "uint64";
    "float8_e4m3b11fnuz"; "float8_e4m3fn"; "float8_e4m3fnuz";
    "float8_e5m2"; "float8_e5m2fnuz";
    "bfloat16"; "float16"; "float32"; "float64";
    "complex64"; "complex128" ].

(** * Proofs *)

(** ** Strings *)

#[local] Arguments String.append !_ _ / : simpl nomatch.

Lemma str_app_nil_r (s : string) : s +:+ "" = s.
Proof. induction s as [|a s IH]; simpl; [done | by rewrite IH]. Qed.

Lemma str_app_assoc (s t u : string) : (s +:+ t) +:+ u = s +:+ t +:+ u.
Proof. induction s as [|a s IH]; simpl; [done | by rewrite IH]. Qed.

Lemma str_length_app (s t : string) :
  String.length (s +:+ t) = String.length s + String.length t.
Proof. induction s as [|a s IH]; simpl; [done | by rewrite IH]. Qed.

Lemma str_app_inv_head (s t u : string) : s +:+ t = s +:+ u -> t = u.
Proof. induction s as [|a s IH]; simpl; [done | intros [=]; auto]. Qed.

Lemma str_app_eq_self (s t : string) : s = s +:+ t -> t = "".
Proof.
  intros H. apply (f_equal String.length) in H. rewrite str_length_app in H.
  destruct t; [done | simpl in H; lia].
Qed.

Lemma nonempty_true (s : string) : Str.nonempty s = true <-> s <> "".
Proof. destruct s; simpl; split; congruence. Qed.

Lemma nonempty_false (s : string) : Str.nonempty s = false <-> s = "".
Proof. destruct s; simpl; split; congruence. Qed.

Lemma ascii_eqb_true (a c : ascii) : Ascii.eqb a c = true <-> a = c.
Proof. apply Ascii.eqb_eq. Qed.

Lemma ascii_eqb_false (a c : ascii) : Ascii.eqb a c = false <-> a <> c.
Proof. apply Ascii.eqb_neq. Qed.


(** A string to which a character is appended ends with it. *)
Lemma endswith_snoc (c a : ascii) (s : string) :
  Str.endswith c (s +:+ String a "") = Ascii.eqb a c.
Proof.
  induction s as [|b s IH]; simpl; [done |].
  rewrite IH. by destruct (s +:+ String a "") eqn:E; [destruct s; discriminate |].
Qed.

Lemma endswith_app (c : ascii) (s t : string) :
  t <> "" -> Str.endswith c (s +:+ t) = Str.endswith c t.
Proof.
  intros Ht. induction s as [|b s IH]; simpl; [done |].
  rewrite IH. destruct (s +:+ t) eqn:E; [| done].
  destruct s, t; simpl in E; congruence.
Qed.

(** A string that ends with [c] contains it. *)
Lemma endswith_contains (c : ascii) (s : string) :
  Str.endswith c s = true -> Str.contains c s = true.
Proof.
  induction s as [|a s IH]; simpl; [done |].
  destruct s as [|b s]; [intros ->; done |].
  intros H. rewrite (IH H). apply orb_true_r.
Qed.

(** *** Splitting and joining *)

Lemma join_cons (sep x : string) (fields : list string) :
  fields <> [] ->
  Str.join sep (x :: fields) = x +:+ sep +:+ Str.join sep fields.
Proof. destruct fields; [done | reflexivity]. Qed.

Lemma split_no_sep (c : ascii) (s : string) :
  Str.contains c s = false -> Str.split c s = [s].
Proof.
  induction s as [|a s IH]; simpl; [done |].
  intros [Ha Hs]%orb_false_elim. rewrite Ha, (IH Hs). done.
Qed.

Lemma split_app (c : ascii) (s t : string) :
  Str.contains c s = false ->
  Str.split c (s +:+ String c t) = s :: Str.split c t.
Proof.
  induction s as [|a s IH]; simpl.
  - intros _. by rewrite (proj2 (ascii_eqb_true c c) eq_refl).
  - intros [Ha Hs]%orb_false_elim. rewrite Ha, (IH Hs). done.
Qed.

(** Splitting what was joined gives the fields back, provided no field
    contains the separator. *)
Lemma split_join (c : ascii) (fields : list string) :
  fields <> [] ->
  forallb (fun f => negb (Str.contains c f)) fields = true ->
  Str.split c (Str.join (String c "") fields) = fields.
Proof.
  induction fields as [|x fields IH]; [done |]. intros _.
  simpl forallb. intros [Hx Hfs]%andb_true_iff.
  apply negb_true_iff in Hx.
  destruct fields as [|y fields].
  - simpl. by apply split_no_sep.
  - rewrite join_cons by done. simpl String.append.
    rewrite split_app by done. f_equal. by apply IH.
Qed.

(** A joined list of non-empty fields is not empty. *)
Lemma join_nonempty (sep : string) (fields : list string) :
  fields <> [] ->
  forallb Str.nonempty fields = true ->
  Str.join sep fields <> "".
Proof.
  destruct fields as [|x fields]; [done |]. intros _.
  simpl forallb. intros [Hx _]%andb_true_iff.
  destruct x; [done |]. destruct fields; simpl; done.
Qed.

(** *** Numerals *)

Lemma all_digits_string_of_uint (d : Decimal.uint) :
  all_digits (NilEmpty.string_of_uint d) = true.
Proof. induction d; simpl; auto. Qed.

Lemma nzhead_not_D0 (d : Decimal.uint) :
  match Decimal.nzhead d with Decimal.D0 _ => False | _ => True end.
Proof. induction d; simpl; auto. Qed.

(** The digits of a positive number start with a digit other than 0. *)
Lemma pos_to_uint_head (p : positive) :
  match Pos.to_uint p with
  | Decimal.Nil | Decimal.D0 _ => False
  | _ => True
  end.
Proof.
  assert (H : Decimal.unorm (Pos.to_uint p) = Pos.to_uint p).
  { rewrite <- DecimalPos.Unsigned.to_of, DecimalPos.Unsigned.of_to. done. }
  pose proof (DecimalPos.Unsigned.to_uint_nonzero p) as Hnz.
  pose proof (nzhead_not_D0 (Pos.to_uint p)) as Hhd.
  unfold Decimal.unorm in H.
  destruct (Decimal.nzhead (Pos.to_uint p)) eqn:E;
    rewrite <- H; try done.
Qed.

Lemma str_int_decimal (i : N) : is_decimal (str_int i) = true.
Proof.
  unfold str_int. destruct i as [|p]; [done |].
  change (N.to_uint (N.pos p)) with (Pos.to_uint p).
  pose proof (pos_to_uint_head p) as H.
  pose proof (all_digits_string_of_uint (Pos.to_uint p)) as Hd.
  destruct (Pos.to_uint p); try done; simpl in *; exact Hd.
Qed.

Lemma int_of_str_int (i : N) : int_of_str (str_int i) = Some i.
Proof.
  unfold int_of_str, str_int.
  rewrite NilEmpty.usu. simpl. rewrite DecimalN.Unsigned.of_to.
  pose proof (str_int_decimal i) as H. unfold str_int in H.
  by destruct (NilEmpty.string_of_uint (N.to_uint i)).
Qed.

Lemma is_digit_not (c a : ascii) :
  is_digit a = false -> is_digit c = true -> Ascii.eqb c a = false.
Proof.
  intros Ha Hc. apply ascii_eqb_false. intros ->. congruence.
Qed.

Lemma all_digits_contains (a : ascii) (s : string) :
  is_digit a = false -> all_digits s = true -> Str.contains a s = false.
Proof.
  intros Ha. induction s as [|c s IH]; simpl; [done |].
  intros [Hc Hs]%andb_true_iff.
  by rewrite (is_digit_not c a), IH.
Qed.

Lemma is_decimal_all_digits (s : string) :
  is_decimal s = true -> all_digits s = true.
Proof.
  destruct s as [|c s]; [done |].
  destruct c as [[] [] [] [] [] [] [] []]; destruct s as [|c' s];
    try done; simpl; by intros [_ ?]%andb_true_iff.
Qed.

Lemma str_int_no_comma (i : N) : Str.contains "," (str_int i) = false.
Proof.
  apply all_digits_contains; [done |].
  apply is_decimal_all_digits, str_int_decimal.
Qed.

Lemma mapM_int_of_str (dims : list N) :
  mapM int_of_str (map str_int dims) = Some dims.
Proof.
  induction dims as [|d dims IH]; [done |].
  simpl. rewrite int_of_str_int. simpl. rewrite IH. done.
Qed.

(** ** The shape descriptor *)

Lemma serialize_shape_unfold (array : ndarray) :
  serialize_shape array
  = dtype array
    +:+ String.concat "" (map (fun d => "," +:+ str_int d) (shape array)).
Proof.
  unfold serialize_shape. generalize (dtype array) as x.
  induction (shape array) as [|d dims IH]; intros x.
  - simpl. by rewrite str_app_nil_r.
  - rewrite map_cons, join_cons by done.
    rewrite IH. f_equal.
    destruct dims as [|d' dims]; simpl.
    + by rewrite !str_app_nil_r.
    + done.
Qed.

Example serialize_shape_float32_2_3 (buffer : list byte) :
  serialize_shape (Ndarray "float32" [2%N; 3%N] buffer) = "float32,2,3".
Proof. reflexivity. Qed.

Example serialize_shape_scalar_int32 (buffer : list byte) :
  serialize_shape (Ndarray "int32" [] buffer) = "int32".
Proof. reflexivity. Qed.

(** C2. The shape descriptor of an array is its dtype name followed, for
    each dimension in order, by a comma and the size of the dimension;
    each size is written as a base-10 numeral (digits only, no leading
    zero) that reads back as the size; and the descriptor of an array
    without dimensions is the dtype name alone, with no comma after it. *)
Theorem serialize_shape_format (array : ndarray) :
  serialize_shape array
  = dtype array
    +:+ String.concat "" (map (fun d => "," +:+ str_int d) (shape array))
  /\ Forall (fun d => is_decimal (str_int d) = true
                     /\ int_of_str (str_int d) = Some d) (shape array)
  /\ (forall name buffer, serialize_shape (Ndarray name [] buffer) = name).
Proof.
  split; [apply serialize_shape_unfold |]. split.
  - apply Forall_forall. intros d _.
    split; [apply str_int_decimal | apply int_of_str_int].
  - reflexivity.
Qed.

(** C5. Splitting the shape descriptor of an array on commas gives its
    dtype name as the first field and, reading the other fields as
    integers, its shape.  The arrays are those of a Parameter Tree: JAX
    arrays, whose dtype names ([float32], [bfloat16], [int8], ...)
    contain no comma, see [jax_dtype_names_no_comma]; this is all the
    round trip asks of the name. *)
Theorem shape_round_trip_no_comma (array : ndarray) :
  Str.contains "," (dtype array) = false ->
  shape_round_trip array.
Proof.
  intros Hname. unfold shape_round_trip, parse_shape, serialize_shape.
  rewrite (split_join "," (dtype array :: map str_int (shape array))).
  - by rewrite mapM_int_of_str.
  - done.
  - simpl. rewrite Hname. simpl.
    apply forallb_forall. intros f [d [<- _]]%in_map_iff.
    by rewrite str_int_no_comma.
Qed.

Lemma shape_round_trip_no_comma_witness :
  shape_round_trip (Ndarray "float32" [2%N; 3%N] []).
Proof. apply shape_round_trip_no_comma. reflexivity. Defined.

(** The dtype names of JAX arrays contain no comma. *)
Example jax_dtype_names_no_comma :
  Forall (fun name => Str.contains "," name = false) jax_dtype_names.
Proof. repeat constructor. Qed.

(** ** The flattening of the parameter tree *)

(** Induction on a tree, with the hypothesis for every child of a
    dictionary. *)
Lemma pytree_ind (P : pytree -> Prop) :
  (forall array, P (Leaf array)) ->
  (forall items, Forall (fun item => P (snd item)) items -> P (Dict items)) ->
  forall tree, P tree.
Proof.
  intros Hleaf Hdict. fix IH 1. intros [array | items].
  - apply Hleaf.
  - apply Hdict. induction items as [|[k child] items IHitems].
    + constructor.
    + constructor; [apply IH | apply IHitems].
Qed.

(** Calling [append_to_list] on each leaf in turn. *)
Lemma fold_left_append_to_list (l : list (keypath * ndarray))
    (acc : list (list string * ndarray)) :
  fold_left (fun s '(path, leaf) => append_to_list path leaf s) l acc
  = acc ++ map (fun x => (path_to_str_tuple (fst x), snd x)) l.
Proof.
  revert acc. induction l as [|[path leaf] l IH]; intros acc; simpl.
  - by rewrite List.app_nil_r.
  - rewrite IH. unfold append_to_list. by rewrite <- List.app_assoc.
Qed.

Lemma flatten_with_path_from_leaves (tree : pytree) :
  forall prefix found,
    flatten_with_path_from prefix tree found
    = found ++ map (keypath_of prefix) (leaves tree).
Proof.
  induction tree as [array | items IH] using pytree_ind; intros prefix found.
  - simpl. unfold keypath_of. simpl. by rewrite List.app_nil_r.
  - simpl. revert found.
    induction IH as [|[k child] items Hchild _ IHitems]; intros found; simpl.
    + by rewrite List.app_nil_r.
    + rewrite IHitems. simpl in Hchild. rewrite Hchild.
      rewrite <- List.app_assoc. f_equal.
      rewrite List.map_app. f_equal.
      rewrite List.map_map. apply List.map_ext. intros [path array].
      unfold keypath_of. simpl. by rewrite <- List.app_assoc.
Qed.

Lemma flatten_params_eq_leaves (params : pytree) :
  flatten_params params = leaves params.
Proof.
  unfold flatten_params, tree_map_with_path.
  rewrite flatten_with_path_from_leaves. simpl.
  rewrite fold_left_append_to_list. simpl. rewrite List.map_map.
  rewrite <- (List.map_id (leaves params)) at 2.
  apply List.map_ext. intros [path array]. unfold keypath_of. simpl.
  unfold path_to_str_tuple. rewrite List.map_map. simpl.
  by rewrite List.map_id.
Qed.

Lemma length_leaves (tree : pytree) : length (leaves tree) = num_leaves tree.
Proof.
  induction tree as [array | items IH] using pytree_ind; [done |].
  simpl. induction IH as [|[k child] items Hchild _ IHitems]; [done |].
  simpl. rewrite List.length_app, List.length_map, IHitems. simpl in Hchild.
  by rewrite Hchild.
Qed.

Lemma in_leaves (tree : pytree) :
  forall path array, In (path, array) (leaves tree) <-> leaf_at tree path array.
Proof.
  induction tree as [array | items IH] using pytree_ind; intros path array'.
  - simpl. split.
    + intros [[= <- <-] | []]. constructor.
    + inversion 1. by left.
  - simpl. rewrite in_flat_map. split.
    + intros [[k child] [Hin Hleaf]].
      apply in_map_iff in Hleaf as [[path' array''] [[= <- <-] Hleaf]].
      rewrite Forall_forall in IH. econstructor; [done |].
      apply (IH (k, child)); [by apply list_elem_of_In | done].
    + inversion 1 as [| items' k child path' array'' Hin Hleaf]; subst.
      exists (k, child). split; [done |].
      apply in_map_iff. exists (path', array'). split; [done |].
      rewrite Forall_forall in IH.
      apply (IH (k, child)); [by apply list_elem_of_In | done].
Qed.

(** The paths of the leaves under the item of key [k] start with [k]. *)
Lemma in_leaves_item (k : string) (child : pytree) (path : list string) :
  In path (map fst (map (fun '(path, array) => (k :: path, array))
                        (leaves child))) ->
  exists path', path = k :: path' /\ In path' (map fst (leaves child)).
Proof.
  rewrite List.map_map. intros [[path' array] [<- Hin]]%in_map_iff.
  exists path'. split; [done |]. apply in_map_iff. by exists (path', array).
Qed.

Lemma NoDup_leaves (tree : pytree) :
  unique_keys tree = true -> NoDup (map fst (leaves tree)).
Proof.
  induction tree as [array | items IH] using pytree_ind.
  - intros _. simpl. apply NoDup_singleton.
  - simpl. intros [Hkeys Hchildren]%andb_true_iff.
    apply bool_decide_eq_true in Hkeys.
    induction IH as [|[k child] items Hchild _ IHitems]; simpl.
    + constructor.
    + simpl in Hkeys, Hchildren, Hchild.
      apply NoDup_cons in Hkeys as [Hk Hkeys].
      apply andb_true_iff in Hchildren as [Hc Hchildren].
      rewrite List.map_app. apply NoDup_app. split; [| split].
      * rewrite List.map_map.
        rewrite (List.map_ext _ (fun x => k :: fst x)) by (by intros []).
        rewrite <- (List.map_map fst (cons k)).
        apply (NoDup_fmap_2 (cons k)). by apply Hchild.
      * intros path Hin%list_elem_of_In Hin'%list_elem_of_In.
        apply in_leaves_item in Hin as [path' [-> _]].
        apply in_map_iff in Hin' as [[path'' array] [Heq Hin']].
        apply in_flat_map in Hin' as [[k' child'] [Hitem Hin']].
        apply in_map_iff in Hin' as [[p a] [[= <- <-] _]].
        simpl in Heq. injection Heq as -> _.
        apply Hk. apply list_elem_of_In, in_map_iff. by exists (k, child').
      * by apply IHitems.
Qed.

Lemma in_leaves_keys_all (P : string -> bool) (tree : pytree) :
  keys_all P tree = true ->
  forall path array, In (path, array) (leaves tree) -> forallb P path = true.
Proof.
  induction tree as [array | items IH] using pytree_ind; simpl.
  - intros _ path array' [[= <- <-] | []]. done.
  - intros Hkeys path array Hin.
    apply in_flat_map in Hin as [[k child] [Hitem Hin]].
    apply in_map_iff in Hin as [[path' array'] [[= <- <-] Hin]].
    rewrite forallb_forall in Hkeys. specialize (Hkeys _ Hitem).
    simpl in Hkeys. apply andb_true_iff in Hkeys as [Hk Hchild].
    simpl. rewrite Hk. simpl.
    rewrite Forall_forall in IH.
    apply (IH (k, child)) with array'; [by apply list_elem_of_In | done | done].
Qed.

(** C3. [flatten_params] is a function of the tree alone (it does not
    act on the world); what it returns is the list of the leaves in
    depth-first order, the items of each dictionary in their order, each
    leaf with the keys from the root down to it: as many pairs as the
    tree has leaves, a pair for a path exactly when the path leads to
    that leaf and, when no dictionary repeats a key, no path twice. *)
Theorem flatten_params_spec (params : pytree) :
  flatten_params params = leaves params
  /\ length (flatten_params params) = num_leaves params
  /\ (forall path array,
        In (path, array) (flatten_params params) <-> leaf_at params path array)
  /\ (unique_keys params = true -> NoDup (map fst (flatten_params params))).
Proof.
  rewrite flatten_params_eq_leaves.
  split; [done |]. split; [apply length_leaves |].
  split; [apply in_leaves | apply NoDup_leaves].
Qed.

Lemma flatten_params_spec_witness :
  let params :=
    Dict [("layer0", Dict [("b", Leaf (Ndarray "float32" [2%N] []));
                           ("w", Leaf (Ndarray "float32" [2%N; 2%N] []))]);
          ("layer1", Dict [("w", Leaf (Ndarray "int8" [] []))])] in
  unique_keys params = true
  /\ NoDup (map fst (flatten_params params))
  /\ map fst (flatten_params params)
     = [["layer0"; "b"]; ["layer0"; "w"]; ["layer1"; "w"]].
Proof.
  intros params. split; [reflexivity |]. split; [| reflexivity].
  apply (flatten_params_spec params). reflexivity.
Defined.

(** ** File stems *)

Lemma is_segment_nonempty (k : string) : is_segment k = true -> k <> "".
Proof. intros [H _]%andb_true_iff. by apply nonempty_true. Qed.

Lemma is_segment_no_sep (k : string) :
  is_segment k = true -> Str.contains os_path.sep k = false.
Proof. intros [_ H]%andb_true_iff. by apply negb_true_iff. Qed.

Lemma plain_name_segment (k : string) : plain_name k = true -> is_segment k = true.
Proof. by intros [[H _]%andb_true_iff _]%andb_true_iff. Qed.


Lemma is_segment_startswith (k : string) :
  is_segment k = true -> Str.startswith os_path.sep k = false.
Proof.
  intros H%is_segment_no_sep. destruct k as [|a k]; [done |].
  simpl in *. by apply orb_false_elim in H as [-> _].
Qed.

Lemma is_segment_endswith (path k : string) :
  is_segment k = true -> Str.endswith os_path.sep (path +:+ k) = false.
Proof.
  intros H. rewrite endswith_app by by apply is_segment_nonempty.
  destruct (Str.endswith os_path.sep k) eqn:E; [| done].
  apply endswith_contains in E. by rewrite is_segment_no_sep in E.
Qed.

(** A segment is appended to the path, after the glue. *)
Lemma join_step_segment (path k : string) :
  is_segment k = true ->
  os_path.join_step path k = path +:+ glue path +:+ k.
Proof.
  intros H. unfold os_path.join_step, glue.
  rewrite is_segment_startswith by done.
  by destruct (negb (Str.nonempty path) || Str.endswith os_path.sep path).
Qed.

Lemma glue_after_segment (path k : string) :
  is_segment k = true -> glue (path +:+ k) = "/".
Proof.
  intros H. unfold glue. rewrite is_segment_endswith by done.
  apply is_segment_nonempty in H.
  by destruct path, k.
Qed.

(** The stem of a path of segments: the root, the glue, and the segments
    with a separator between them. *)
Lemma join_segments (root : string) (p : list string) :
  p <> [] ->
  forallb is_segment p = true ->
  os_path.join root p = root +:+ glue root +:+ Str.join "/" p.
Proof.
  revert root. induction p as [|k p IH]; [done |]. intros root _.
  simpl forallb. intros [Hk Hp]%andb_true_iff.
  unfold os_path.join. simpl fold_left. fold (os_path.join (os_path.join_step root k) p).
  rewrite join_step_segment by done.
  destruct p as [|k' p]; [done |].
  rewrite IH by done.
  rewrite <- (str_app_assoc root (glue root) k).
  rewrite glue_after_segment by done.
  rewrite (join_cons "/" k) by done.
  by rewrite !str_app_assoc.
Qed.

Lemma forallb_segment_no_sep (p : list string) :
  forallb is_segment p = true ->
  forallb (fun f => negb (Str.contains os_path.sep f)) p = true.
Proof.
  rewrite !forallb_forall. intros H k Hk.
  by rewrite is_segment_no_sep by by apply H.
Qed.

Lemma forallb_segment_nonempty (p : list string) :
  forallb is_segment p = true -> forallb Str.nonempty p = true.
Proof.
  rewrite !forallb_forall. intros H k Hk.
  by apply nonempty_true, is_segment_nonempty, H.
Qed.

(** Under a root, a path of segments is a proper extension of the root. *)
Lemma join_segments_extends (root : string) (p : list string) :
  p <> [] ->
  forallb is_segment p = true ->
  exists suffix, suffix <> "" /\ os_path.join root p = root +:+ suffix.
Proof.
  intros Hne Hp. exists (glue root +:+ Str.join "/" p). split.
  - intros H. apply (join_nonempty "/" p Hne); [by apply forallb_segment_nonempty |].
    destruct (glue root); [done | discriminate].
  - by apply join_segments.
Qed.

(** Paths of segments with the same stem are equal. *)
Lemma join_segments_inj (root : string) (p q : list string) :
  forallb is_segment p = true ->
  forallb is_segment q = true ->
  os_path.join root p = os_path.join root q ->
  p = q.
Proof.
  intros Hp Hq Heq.
  destruct (decide (p = [])) as [-> | Hpne], (decide (q = [])) as [-> | Hqne].
  - done.
  - destruct (join_segments_extends root q Hqne Hq) as [suffix [Hs Hj]].
    rewrite Hj in Heq. by apply str_app_eq_self in Heq.
  - destruct (join_segments_extends root p Hpne Hp) as [suffix [Hs Hj]].
    rewrite Hj in Heq. symmetry in Heq. by apply str_app_eq_self in Heq.
  - rewrite !join_segments in Heq by done.
    do 2 apply str_app_inv_head in Heq.
    rewrite <- (split_join os_path.sep p), <- (split_join os_path.sep q);
      [| done | by apply forallb_segment_no_sep | done
       | by apply forallb_segment_no_sep].
    by f_equal.
Qed.

(** The tree whose two leaves collide: the key of one contains the
    separator that joins the keys of the other. *)
Example colliding_stems :
  os_path.join "/out" ["a"; "b"] = "/out/a/b"
  /\ os_path.join "/out" ["a/b"] = "/out/a/b".
Proof. split; reflexivity. Qed.

(** C4, as amended. In a tree whose keys are segments (not empty, and
    without a separator), distinct leaves get distinct file stems under
    any root. *)
Theorem distinct_stems_segments (tree : pytree) (root : string) :
  keys_all is_segment tree = true ->
  distinct_stems tree root.
Proof.
  intros Hkeys p a q b Hp Hq Hne Heq. apply Hne.
  rewrite flatten_params_eq_leaves in Hp, Hq.
  apply (join_segments_inj root); [| | done].
  - by apply (in_leaves_keys_all _ tree Hkeys p a).
  - by apply (in_leaves_keys_all _ tree Hkeys q b).
Qed.

Lemma distinct_stems_segments_witness :
  distinct_stems
    (Dict [("layer0", Dict [("b", Leaf (Ndarray "float32" [2%N] []));
                            ("w", Leaf (Ndarray "float32" [2%N; 2%N] []))])])
    "/out".
Proof. apply distinct_stems_segments. reflexivity. Defined.

(** C4, as stated, fails: a key may contain a separator, and then two
    distinct leaves of a tree without repeated keys have the same stem. *)
Lemma distinct_stems_fails :
  let tree :=
    Dict [("a", Dict [("b", Leaf (Ndarray "float32" [] [x01]))]);
          ("a/b", Leaf (Ndarray "int8" [1%N] [x02]))] in
  unique_keys tree = true /\ ~ distinct_stems tree "/out".
Proof.
  intros tree. split; [reflexivity |]. intros H.
  apply (H ["a"; "b"] (Ndarray "float32" [] [x01])
           ["a/b"] (Ndarray "int8" [1%N] [x02])).
  - by left.
  - right. by left.
  - discriminate.
  - reflexivity.
Qed.

(** ** The file system *)

Lemma advance_nil (w : world) : advance w (disk w) [] = w.
Proof. destruct w. unfold advance. simpl. by rewrite List.app_nil_r. Qed.

Lemma advance_advance (w : world) (d1 d2 : gmap string entry)
    (j1 j2 : list event) :
  advance (advance w d1 j1) d2 j2 = advance w d2 (j1 ++ j2).
Proof. unfold advance. simpl. by rewrite List.app_assoc. Qed.

Lemma extends_refl (d : gmap string entry) : extends d d.
Proof. intros path. destruct (d !! path) as [[|c] |]; eauto. Qed.

Lemma extends_trans (d1 d2 d3 : gmap string entry) :
  extends d1 d2 -> extends d2 d3 -> extends d1 d3.
Proof.
  intros H12 H23 path. specialize (H12 path). specialize (H23 path).
  destruct (d1 !! path) as [[|c] |]; [| | done].
  - by rewrite H12 in H23.
  - destruct H12 as [c' H12]. by rewrite H12 in H23.
Qed.

Lemma grows_refl (d : gmap string entry) : grows d d.
Proof. intros path. by left. Qed.

Lemma grows_trans (d1 d2 d3 : gmap string entry) :
  grows d1 d2 -> grows d2 d3 -> grows d1 d3.
Proof.
  intros H12 H23 path.
  destruct (H12 path) as [E12 | [E1 E2]], (H23 path) as [E23 | [E2' E3]].
  - left. congruence.
  - right. split; congruence.
  - right. split; congruence.
  - congruence.
Qed.

Lemma grows_extends (d d' : gmap string entry) : grows d d' -> extends d d'.
Proof.
  intros H path. destruct (H path) as [E | [E _]]; rewrite <- ?E.
  - rewrite E. destruct (d !! path) as [[|c] |]; eauto.
  - by rewrite E.
Qed.

Lemma grows_insert_directory (d : gmap string entry) (name : string) :
  d !! name = None -> grows d (<[name := Directory]> d).
Proof.
  intros Hname path. destruct (decide (name = path)) as [<- | Hne].
  - right. by rewrite lookup_insert_eq.
  - left. by rewrite lookup_insert_ne.
Qed.

Lemma extends_insert_file (d : gmap string entry) (path : string)
    (content : list byte) :
  d !! path <> Some Directory -> extends d (<[path := File content]> d).
Proof.
  intros Hpath q. destruct (decide (path = q)) as [<- | Hne].
  - rewrite lookup_insert_eq. destruct (d !! path) as [[|c] |]; eauto. done.
  - rewrite lookup_insert_ne by done. destruct (d !! q) as [[|c] |]; eauto.
Qed.

(** What [stat] finds is kept by an extension. *)
Lemma stat_extends (d d' : gmap string entry) (path : string) :
  extends d d' ->
  match stat d path with
  | Some Directory => stat d' path = Some Directory
  | Some (File _) => exists content, stat d' path = Some (File content)
  | None => True
  end.
Proof.
  intros H. unfold stat.
  destruct (Str.nonempty path); [| done].
  destruct (Str.all_char os_path.sep path); [done |]. apply H.
Qed.

Lemma is_directory_extends (d d' : gmap string entry) (path : string) :
  extends d d' -> is_directory d path = true -> is_directory d' path = true.
Proof.
  intros H. unfold is_directory. pose proof (stat_extends d d' path H) as Hs.
  destruct (stat d path) as [[|c] |]; [| done | done]. by rewrite Hs.
Qed.

Lemma present_extends (d d' : gmap string entry) (path : string) :
  extends d d' -> present d path = true -> present d' path = true.
Proof.
  intros H. unfold present. pose proof (stat_extends d d' path H) as Hs.
  destruct (stat d path) as [[|c] |]; [| | done].
  - by rewrite Hs.
  - destruct Hs as [c' ->]. done.
Qed.

Lemma parent_error_extends (d d' : gmap string entry) (path : string) :
  extends d d' -> parent_error d path = None -> parent_error d' path = None.
Proof.
  intros H. unfold parent_error.
  destruct (Str.nonempty (os_path.dirname path)); [| done].
  pose proof (stat_extends d d' (os_path.dirname path) H) as Hs.
  destruct (stat d (os_path.dirname path)) as [[|c] |]; [| done | done].
  by rewrite Hs.
Qed.

(** A path that names a file or nothing is not the directory above
    another path. *)
Lemma parent_error_is_directory (d : gmap string entry) (path : string) :
  parent_error d path = None ->
  os_path.dirname path = "" \/ is_directory d (os_path.dirname path) = true.
Proof.
  unfold parent_error, is_directory.
  destruct (os_path.dirname path) as [|a h] eqn:E; [by left |]. simpl.
  destruct (stat d (String a h)) as [[|c] |]; [by right | done | done].
Qed.

(** An extension of a well-formed tree whose new entries lie in
    directories is well formed. *)
Lemma wf_disk_extends (d d' : gmap string entry) :
  wf_disk d ->
  extends d d' ->
  (forall path, d !! path = None -> is_Some (d' !! path) ->
     Str.nonempty path = true /\ parent_error d' path = None) ->
  wf_disk d'.
Proof.
  intros Hwf Hext Hnew path e He.
  destruct (d !! path) as [e0 |] eqn:E.
  - destruct (Hwf path e0 E) as [Hne Hpar]. split; [done |].
    by apply (parent_error_extends d d').
  - apply Hnew; [done | by exists e].
Qed.

(** *** System calls *)

Lemma syscall_inv (ev : event) (error : gmap string entry -> option exn)
    (effect : gmap string entry -> gmap string entry) (w w' : world)
    (r : outcome unit) :
  syscall ev error effect w = (w', r) ->
  (w' = w
   /\ exists e, r = Raise e
               /\ ((e = OSError /\ faulty w) \/ error (disk w) = Some e))
  \/ (w' = advance w (effect (disk w)) [ev] /\ r = Ok tt
      /\ error (disk w) = None).
Proof.
  unfold syscall. destruct (faults w (journal w) ev) eqn:Ef.
  - intros [= <- <-]. left. split; [done |]. exists OSError.
    split; [done |]. left. split; [done |]. by exists (journal w), ev.
  - destruct (error (disk w)) as [e |] eqn:E.
    + intros [= <- <-]. left. eauto.
    + intros [= <- <-]. right. done.
Qed.

Lemma parent_error_OSError (d : gmap string entry) (path : string) (e : exn) :
  parent_error d path = Some e -> is_OSError e = true.
Proof.
  unfold parent_error. destruct (Str.nonempty (os_path.dirname path)); [| done].
  destruct (stat d (os_path.dirname path)) as [[|c] |]; by intros [= <-].
Qed.

Lemma present_false_lookup (d : gmap string entry) (path : string) :
  present d path = false -> Str.nonempty path = true -> d !! path = None.
Proof.
  unfold present, stat. intros H Hn. rewrite Hn in H.
  destruct (Str.all_char os_path.sep path); [done |].
  by destruct (d !! path).
Qed.

Lemma is_directory_present (d : gmap string entry) (path : string) :
  is_directory d path = true -> present d path = true.
Proof. unfold is_directory, present. by destruct (stat d path) as [[|c] |]. Qed.

Lemma mkdir_inv (name : string) (w w' : world) (r : outcome unit) :
  os.mkdir name w = (w', r) ->
  (w' = w /\ exists e, r = Raise e /\ is_OSError e = true)
  \/ (w' = advance w (<[name := Directory]> (disk w)) [EvMkdir name]
      /\ r = Ok tt
      /\ Str.nonempty name = true
      /\ parent_error (disk w) name = None
      /\ present (disk w) name = false).
Proof.
  intros H. apply syscall_inv in H as [[-> [e [-> He]]] | [-> [-> He]]].
  - left. split; [done |]. exists e. split; [done |].
    destruct He as [[-> _] | He]; [done |].
    destruct (Str.nonempty name); simpl in He; [| by simplify_eq].
    destruct (parent_error (disk w) name) as [e' |] eqn:E.
    + simplify_eq. by apply parent_error_OSError in E.
    + destruct (present (disk w) name); by simplify_eq.
  - right. split; [done |]. split; [done |].
    destruct (Str.nonempty name); simpl in He; [| done].
    destruct (parent_error (disk w) name) as [e' |] eqn:E; [done |].
    by destruct (present (disk w) name).
Qed.

Lemma mkdir_exist_ok_inv (name : string) (w w' : world) (r : outcome unit) :
  os.mkdir_exist_ok name w = (w', r) ->
  (w' = w /\ r = Ok tt /\ is_directory (disk w) name = true)
  \/ (w' = w /\ exists e, r = Raise e /\ is_OSError e = true)
  \/ (w' = advance w (<[name := Directory]> (disk w)) [EvMkdir name]
      /\ r = Ok tt
      /\ Str.nonempty name = true
      /\ parent_error (disk w) name = None
      /\ disk w !! name = None).
Proof.
  unfold os.mkdir_exist_ok, try_except.
  destruct (os.mkdir name w) as [w1 r1] eqn:E.
  apply mkdir_inv in E as [[-> [e [-> He]]] | [-> [-> [Hn [Hp Hx]]]]].
  - rewrite He. unfold bind, path_isdir, ret, raise.
    destruct (is_directory (disk w) name) eqn:Hd; intros [= <- <-].
    + by left.
    + right. left. eauto.
  - intros [= <- <-]. right. right.
    repeat split; try done. by apply present_false_lookup.
Qed.

Lemma mkdir_exist_ok_exists (name : string) (w : world) :
  is_directory (disk w) name = true ->
  os.mkdir_exist_ok name w = (w, Ok tt).
Proof.
  intros Hd. unfold os.mkdir_exist_ok, try_except.
  destruct (os.mkdir name w) as [w1 r1] eqn:E.
  apply mkdir_inv in E as [[-> [e [-> He]]] | [-> [-> [Hn [Hp Hx]]]]].
  - rewrite He. unfold bind, path_isdir, ret. by rewrite Hd.
  - apply is_directory_present in Hd. congruence.
Qed.

Lemma mkdirs_only_refl (w : world) : mkdirs_only w w.
Proof.
  exists (disk w), []. split; [by rewrite advance_nil |].
  split; [apply grows_refl |]. split; [constructor | done].
Qed.

Lemma mkdirs_only_trans (w1 w2 w3 : world) :
  mkdirs_only w1 w2 -> mkdirs_only w2 w3 -> mkdirs_only w1 w3.
Proof.
  intros (d1 & j1 & -> & Hg1 & Hj1 & Hwf1) (d2 & j2 & -> & Hg2 & Hj2 & Hwf2).
  simpl in *. exists d2, (j1 ++ j2). split; [apply advance_advance |].
  split; [by apply (grows_trans _ d1) |].
  split; [by apply Forall_app | auto].
Qed.

Lemma wf_disk_mkdir (d : gmap string entry) (name : string) :
  wf_disk d ->
  Str.nonempty name = true ->
  parent_error d name = None ->
  d !! name = None ->
  wf_disk (<[name := Directory]> d).
Proof.
  intros Hwf Hn Hp Hx.
  assert (Hext : extends d (<[name := Directory]> d))
    by by apply grows_extends, grows_insert_directory.
  apply (wf_disk_extends d); [done | done |].
  intros path Hpath Hsome. destruct (decide (name = path)) as [<- | Hne].
  - split; [done |]. by apply (parent_error_extends d).
  - rewrite lookup_insert_ne, Hpath in Hsome by done. by destruct Hsome.
Qed.

Lemma mkdir_exist_ok_mkdirs_only (name : string) (w w' : world)
    (r : outcome unit) :
  os.mkdir_exist_ok name w = (w', r) -> mkdirs_only w w'.
Proof.
  intros [(-> & _) | [(-> & _) | (-> & _ & Hn & Hp & Hx)]]%mkdir_exist_ok_inv;
    [apply mkdirs_only_refl .. |].
  exists (<[name := Directory]> (disk w)), [EvMkdir name].
  split; [done |]. split; [by apply grows_insert_directory |].
  split; [by repeat constructor |].
  intros Hwf. by apply wf_disk_mkdir.
Qed.

Lemma missing_check (cond : bool) (head : string) (w : world) :
  (if cond then found <- path_exists head ;; ret (negb found) else ret false) w
  = (w, Ok (cond && negb (present (disk w) head))).
Proof. by destruct cond. Qed.

(** *** Heads of paths *)

Lemma rcut_app (c : ascii) (s : string) :
  fst (Str.rcut c s) +:+ snd (Str.rcut c s) = s.
Proof.
  induction s as [|a s IH]; [done |]. simpl.
  destruct (Str.rcut c s) as [h t]. simpl in IH.
  destruct (Str.nonempty h) eqn:Hh; simpl.
  - by rewrite IH.
  - apply nonempty_false in Hh as ->. simpl in IH.
    destruct (Ascii.eqb a c); simpl; by rewrite IH.
Qed.

Lemma rcut_all_char (c : ascii) (s : string) :
  Str.all_char c s = true -> Str.rcut c s = (s, "").
Proof.
  induction s as [|a s IH]; [done |]. simpl.
  intros [Ha Hs]%andb_true_iff. rewrite (IH Hs), Ha. by destruct s.
Qed.

Lemma length_rstrip (c : ascii) (s : string) :
  String.length (Str.rstrip c s) <= String.length s.
Proof.
  induction s as [|a s IH]; simpl; [done |].
  destruct (Str.rstrip c s); [destruct (Ascii.eqb a c) |]; simpl in *; lia.
Qed.

Lemma length_split (p head tail : string) :
  os_path.split p = (head, tail) ->
  String.length head + String.length tail <= String.length p.
Proof.
  unfold os_path.split. pose proof (rcut_app os_path.sep p) as H.
  destruct (Str.rcut os_path.sep p) as [h t]. simpl in H.
  apply (f_equal String.length) in H. rewrite str_length_app in H.
  pose proof (length_rstrip os_path.sep h).
  destruct (Str.nonempty h && negb (Str.all_char os_path.sep h));
    intros [= <- <-]; lia.
Qed.

Lemma split_all_char (p : string) :
  Str.all_char os_path.sep p = true -> os_path.split p = (p, "").
Proof.
  intros H. unfold os_path.split. rewrite rcut_all_char by done.
  rewrite H. by rewrite andb_false_r.
Qed.

(** The head on which [os.makedirs] recurses is shorter than the path. *)
Lemma makedirs_head_shorter (name h1 t1 head tail : string) :
  os_path.split name = (h1, t1) ->
  (if Str.nonempty t1 then (h1, t1) else os_path.split h1) = (head, tail) ->
  Str.nonempty tail = true ->
  String.length head < String.length name.
Proof.
  intros H1%length_split H2 Ht.
  assert (0 < String.length tail) by (destruct tail; simpl in *; [done | lia]).
  destruct (Str.nonempty t1).
  - injection H2 as <- <-. lia.
  - apply length_split in H2. lia.
Qed.

(** One step of [os.makedirs_rec], the test for the missing head
    evaluated. *)
Lemma makedirs_rec_step (fuel : nat) (name : string) (w : world) :
  os.makedirs_rec fuel name w
  = (let '(head, tail) := os_path.split name in
     let '(head, tail) :=
       if Str.nonempty tail then (head, tail) else os_path.split head in
     if Str.nonempty head && Str.nonempty tail
        && negb (present (disk w) head)
     then
       match fuel with
       | O => (w, Raise RecursionError)
       | S fuel' =>
           (try_except (os.makedirs_rec fuel' head)
              (fun e => match e with
                        | FileExistsError => ret tt
                        | _ => raise e
                        end) ;;
            if String.eqb tail "." then ret tt else os.mkdir_exist_ok name) w
       end
     else os.mkdir_exist_ok name w).
Proof.
  destruct fuel; simpl;
    destruct (os_path.split name) as [h1 t1];
    destruct (if Str.nonempty t1 then (h1, t1) else os_path.split h1)
      as [head tail];
    unfold bind at 1; rewrite missing_check;
    by destruct (Str.nonempty head && Str.nonempty tail
                 && negb (present (disk w) head)).
Qed.

(** With fuel for the length of the path, the bound is never reached:
    more fuel changes nothing. *)
Lemma makedirs_rec_fuel (fuel : nat) :
  forall name w,
    String.length name <= fuel ->
    os.makedirs_rec fuel name w = os.makedirs name w.
Proof.
  induction fuel as [fuel IH] using lt_wf_ind. intros name w Hlen.
  unfold os.makedirs. rewrite !makedirs_rec_step.
  destruct (os_path.split name) as [h1 t1] eqn:E1.
  destruct (if Str.nonempty t1 then (h1, t1) else os_path.split h1)
    as [head tail] eqn:E2.
  destruct (Str.nonempty head && Str.nonempty tail
            && negb (present (disk w) head)) eqn:Em; [| done].
  apply andb_true_iff in Em as [[_ Ht]%andb_true_iff _].
  pose proof (makedirs_head_shorter _ _ _ _ _ E1 E2 Ht) as Hlt.
  destruct fuel as [|fuel], (String.length name) as [|n] eqn:En; try lia.
  unfold bind, try_except.
  rewrite (IH fuel) by lia. rewrite (IH n) by lia. done.
Qed.

(** The equation of [os.makedirs(name, exist_ok=True)]. *)
Lemma makedirs_unfold (name : string) (w : world) :
  os.makedirs name w
  = (let '(head, tail) := os_path.split name in
     let '(head, tail) :=
       if Str.nonempty tail then (head, tail) else os_path.split head in
     if Str.nonempty head && Str.nonempty tail
        && negb (present (disk w) head)
     then
       (try_except (os.makedirs head)
          (fun e => match e with
                    | FileExistsError => ret tt
                    | _ => raise e
                    end) ;;
        if String.eqb tail "." then ret tt else os.mkdir_exist_ok name) w
     else os.mkdir_exist_ok name w).
Proof.
  rewrite <- (makedirs_rec_fuel (S (String.length name))) by lia.
  rewrite makedirs_rec_step.
  destruct (os_path.split name) as [h1 t1] eqn:E1.
  destruct (if Str.nonempty t1 then (h1, t1) else os_path.split h1)
    as [head tail] eqn:E2.
  destruct (Str.nonempty head && Str.nonempty tail
            && negb (present (disk w) head)) eqn:Em; [| done].
  apply andb_true_iff in Em as [[_ Ht]%andb_true_iff _].
  pose proof (makedirs_head_shorter _ _ _ _ _ E1 E2 Ht) as Hlt.
  unfold bind, try_except. rewrite makedirs_rec_fuel by lia. done.
Qed.

Lemma makedirs_rec_mkdirs_only (fuel : nat) :
  forall name w w' r,
    os.makedirs_rec fuel name w = (w', r) -> mkdirs_only w w'.
Proof.
  induction fuel as [|fuel IH]; intros name w w' r;
    rewrite makedirs_rec_step;
    destruct (os_path.split name) as [h1 t1];
    destruct (if Str.nonempty t1 then (h1, t1) else os_path.split h1)
      as [head tail];
    destruct (Str.nonempty head && Str.nonempty tail
              && negb (present (disk w) head));
    try apply mkdir_exist_ok_mkdirs_only.
  - intros [= <- <-]. apply mkdirs_only_refl.
  - unfold bind, try_except.
    destruct (os.makedirs_rec fuel head w) as [w1 r1] eqn:E1.
    apply IH in E1.
    assert (Hnext : forall r,
      (if String.eqb tail "." then ret tt else os.mkdir_exist_ok name) w1
      = (w', r) -> mkdirs_only w w').
    { intros r'. destruct (String.eqb tail ".").
      - by intros [= <- <-].
      - intros H%mkdir_exist_ok_mkdirs_only. by apply (mkdirs_only_trans _ w1). }
    destruct r1 as [[] | e]; [apply Hnext |].
    destruct e; try (by intros [= <- <-]).
    apply Hnext.
Qed.

Lemma makedirs_mkdirs_only (name : string) (w w' : world) (r : outcome unit) :
  os.makedirs name w = (w', r) -> mkdirs_only w w'.
Proof. apply makedirs_rec_mkdirs_only. Qed.

(** In a well-formed tree the head of a directory is a directory. *)
Lemma wf_split_head (d : gmap string entry) (p head tail : string) :
  wf_disk d ->
  is_directory d p = true ->
  os_path.split p = (head, tail) ->
  head = "" \/ is_directory d head = true.
Proof.
  intros Hwf Hp Hsplit. unfold is_directory, stat in Hp.
  destruct (Str.nonempty p) eqn:Hn; [| done].
  destruct (Str.all_char os_path.sep p) eqn:Ha.
  - rewrite split_all_char in Hsplit by done. injection Hsplit as <- <-.
    right. unfold is_directory, stat. by rewrite Hn, Ha.
  - destruct (d !! p) as [[|c] |] eqn:E; [| done | done].
    destruct (Hwf p _ E) as [_ Hpar].
    apply parent_error_is_directory in Hpar.
    unfold os_path.dirname in Hpar. by rewrite Hsplit in Hpar.
Qed.

(** [os.makedirs] on a directory that exists changes nothing. *)
Lemma makedirs_exists (name : string) (w : world) :
  wf_disk (disk w) ->
  is_directory (disk w) name = true ->
  os.makedirs name w = (w, Ok tt).
Proof.
  intros Hwf Hd. rewrite makedirs_unfold.
  destruct (os_path.split name) as [h1 t1] eqn:E1.
  destruct (if Str.nonempty t1 then (h1, t1) else os_path.split h1)
    as [head tail] eqn:E2.
  assert (Hhead : head = "" \/ is_directory (disk w) head = true).
  { destruct (wf_split_head _ _ _ _ Hwf Hd E1) as [-> | Hh1].
    - left. destruct (Str.nonempty t1); by injection E2 as <- <-.
    - destruct (Str.nonempty t1); [by injection E2 as <- <-; right |].
      by apply (wf_split_head _ _ _ _ Hwf Hh1 E2). }
  replace (Str.nonempty head && Str.nonempty tail
           && negb (present (disk w) head)) with false.
  - by apply mkdir_exist_ok_exists.
  - destruct Hhead as [-> | Hh]; [done |].
    rewrite (is_directory_present _ _ Hh). simpl. by rewrite andb_false_r.
Qed.

(** [os.makedirs("")] fails. *)
Lemma makedirs_empty (w w' : world) (r : outcome unit) :
  os.makedirs "" w = (w', r) -> r <> Ok tt.
Proof.
  rewrite makedirs_unfold. simpl.
  intros [(_ & _ & H) | [(_ & e & -> & _) | (_ & _ & H & _)]]%mkdir_exist_ok_inv;
    done.
Qed.

(** *** Writing a file *)

Lemma open_error_writable (d : gmap string entry) (path : string) :
  (if negb (Str.nonempty path) then Some FileNotFoundError
   else match parent_error d path with
        | Some e => Some e
        | None =>
            match stat d path with
            | Some Directory => Some IsADirectoryError
            | _ => None
            end
        end) = None <-> writable d path.
Proof.
  unfold writable. destruct (Str.nonempty path); simpl; [| by intuition].
  destruct (parent_error d path); [by intuition |].
  destruct (stat d path) as [[|c] |]; by intuition.
Qed.

Lemma with_open_write_inv (path : string) (data : list byte) (w w' : world)
    (r : outcome unit) :
  with_open path (fun f => write f data) w = (w', r) ->
  (w' = w
   /\ exists e, r = Raise e
               /\ ((e = OSError /\ faulty w) \/ ~ writable (disk w) path))
  \/ (writable (disk w) path /\ r = Raise OSError /\ faulty w
      /\ exists content j,
           w' = advance w (<[path := File content]> (disk w)) j
           /\ cut_short path data j)
  \/ (writable (disk w) path /\ r = Ok tt
      /\ w' = advance w (<[path := File data]> (disk w)) (written path data)).
Proof.
  unfold with_open, open_w, bind at 1 2.
  match goal with |- context [syscall ?ev ?err ?eff w] =>
    destruct (syscall ev err eff w) as [w1 r1] eqn:E end.
  apply syscall_inv in E as [[-> [e [-> He]]] | [-> [-> He]]].
  - intros [= <- <-]. left. split; [done |]. exists e. split; [done |].
    destruct He as [He | He]; [by left | right].
    intros Hw%open_error_writable. congruence.
  - apply open_error_writable in He. unfold ret, finally, write.
    match goal with |- context [syscall ?ev ?err ?eff ?w0] =>
      destruct (syscall ev err eff w0) as [w2 r2] eqn:E end.
    apply syscall_inv in E as [[-> [e [-> Hf]]] | [-> [-> _]]].
    + assert (e = OSError /\ faulty w) as [-> Hfw] by (by destruct Hf).
      clear Hf. unfold close.
      match goal with |- context [syscall ?ev ?err ?eff ?w0] =>
        destruct (syscall ev err eff w0) as [w3 r3] eqn:E end.
      apply syscall_inv in E as [[-> [e [-> Hf]]] | [-> [-> _]]].
      * assert (e = OSError) as -> by (by destruct Hf as [[-> _] |]).
        intros [= <- <-]. right. left. do 3 (split; [done |]).
        exists [], [EvOpen path]. split; [done | by left].
      * intros [= <- <-]. right. left. do 3 (split; [done |]).
        exists [], [EvOpen path; EvClose path].
        split; [by rewrite advance_advance | right; by left].
    + simpl. rewrite lookup_insert_eq, insert_insert_eq. simpl.
      rewrite advance_advance. unfold close.
      match goal with |- context [syscall ?ev ?err ?eff ?w0] =>
        destruct (syscall ev err eff w0) as [w3 r3] eqn:E end.
      apply syscall_inv in E as [[-> [e [-> Hf]]] | [-> [-> _]]].
      * assert (e = OSError /\ faulty w) as [-> Hfw] by (by destruct Hf).
        intros [= <- <-]. right. left. do 3 (split; [done |]).
        exists data, [EvOpen path; EvWrite path data].
        split; [done | right; by right].
      * intros [= <- <-]. right. right. split; [done |]. split; [done |].
        by rewrite advance_advance.
Qed.

(** *** The export of one leaf *)

Lemma write_leaf_run (base_dir : string) (leaf : list string * ndarray)
    (w w' : world) (r : outcome unit) :
  write_leaf base_dir leaf w = (w', r) -> leaf_run base_dir leaf w w' r.
Proof.
  destruct leaf as [path array]. unfold write_leaf, bind at 1.
  destruct (os.makedirs _ w) as [w1 [[] | e]] eqn:Em.
  2: { intros [= <- <-]. by apply run_no_directory. }
  assert (Hfaulty : forall d j, faulty (advance w1 d j) -> faulty w).
  { by apply makedirs_mkdirs_only in Em as (d & j & -> & _). }
  unfold bind at 1.
  destruct (with_open (os_path.join base_dir path +:+ ".raw") _ w1)
    as [w2 r2] eqn:E2.
  apply with_open_write_inv in E2
    as [(-> & e & -> & He)
       | [(Hw & -> & Hf & c & j & -> & Hj) | (Hw & -> & ->)]].
  - intros [= <- <-]. apply run_raw_refused; [done |].
    destruct He as [[-> He] | He]; [left | by right].
    split; [done |]. apply (Hfaulty (disk w1) []). by rewrite advance_nil.
  - intros [= <- <-]. apply (run_raw_cut_short base_dir (path, array));
      [done | done | | done].
    apply (Hfaulty (disk w1) []). by rewrite advance_nil.
  - intros E3. apply with_open_write_inv in E3
      as [(-> & e & -> & He)
         | [(Hs & -> & Hf & c & j & -> & Hj) | (Hs & -> & ->)]];
      simpl in *.
    + apply (run_shape_refused base_dir (path, array)); [done | done |].
      destruct He as [[-> He] | He]; [left | by right].
      split; [done |]. by apply Hfaulty in He.
    + rewrite advance_advance.
      apply (run_shape_cut_short base_dir (path, array)); try done.
      by apply Hfaulty in Hf.
    + rewrite advance_advance.
      by apply (run_done base_dir (path, array)).
Qed.

(** A writable path does not name a directory. *)
Lemma writable_lookup (d : gmap string entry) (path : string) :
  writable d path -> d !! path <> Some Directory.
Proof.
  intros (Hn & _ & Hs). unfold stat in Hs. rewrite Hn in Hs.
  by destruct (Str.all_char os_path.sep path).
Qed.

Lemma extends_write (d : gmap string entry) (path : string)
    (content : list byte) :
  writable d path -> extends d (<[path := File content]> d).
Proof. intros H. by apply extends_insert_file, writable_lookup. Qed.

Lemma wf_disk_write (d : gmap string entry) (path : string)
    (content : list byte) :
  wf_disk d -> writable d path -> wf_disk (<[path := File content]> d).
Proof.
  intros Hwf Hw. pose proof (extends_write d path content Hw) as Hext.
  apply (wf_disk_extends d); [done | done |].
  intros q Hq Hsome. destruct (decide (path = q)) as [<- | Hne].
  - destruct Hw as (Hn & Hp & _). split; [done |].
    by apply (parent_error_extends d).
  - rewrite lookup_insert_ne, Hq in Hsome by done. by destruct Hsome.
Qed.

Lemma mkdirs_only_extends (w w' : world) :
  mkdirs_only w w' -> extends (disk w) (disk w').
Proof. intros (d & j & -> & Hg & _). by apply grows_extends. Qed.

Lemma mkdirs_only_wf (w w' : world) :
  mkdirs_only w w' -> wf_disk (disk w) -> wf_disk (disk w').
Proof. intros (d & j & -> & _ & _ & Hwf). done. Qed.

(** Whatever its outcome, the export of a leaf keeps what the directory
    tree holds, and keeps it well formed. *)
Lemma leaf_run_extends (base_dir : string) (leaf : list string * ndarray)
    (w w' : world) (r : outcome unit) :
  leaf_run base_dir leaf w w' r ->
  extends (disk w) (disk w')
  /\ (wf_disk (disk w) -> wf_disk (disk w')).
Proof.
  intros H. destruct H as
    [w1 e Hm | w1 e Hm _ | w1 c j raw Hm Hr _ _ | w1 e raw d2 Hm Hr _
    | w1 c j raw shp d2 Hm Hr Hs _ _ | w1 raw shp d2 Hm Hr Hs];
    apply makedirs_mkdirs_only in Hm;
    pose proof (mkdirs_only_extends _ _ Hm) as Hext;
    pose proof (mkdirs_only_wf _ _ Hm) as Hwf; simpl.
  - done.
  - done.
  - split.
    + eapply extends_trans; [done |]. by apply extends_write.
    + intros H. by apply wf_disk_write; [apply Hwf |].
  - split.
    + eapply extends_trans; [done |]. by apply extends_write.
    + intros H. by apply wf_disk_write; [apply Hwf |].
  - split.
    + eapply extends_trans; [done |].
      eapply extends_trans; [by apply extends_write |].
      by apply extends_write.
    + intros H. apply wf_disk_write; [| done].
      by apply wf_disk_write; [apply Hwf |].
  - split.
    + eapply extends_trans; [done |].
      eapply extends_trans; [by apply extends_write |].
      by apply extends_write.
    + intros H. apply wf_disk_write; [| done].
      by apply wf_disk_write; [apply Hwf |].
Qed.

(** *** Paths with an extension *)

Lemma rcut_no_sep (c : ascii) (s : string) :
  Str.contains c s = false -> Str.rcut c s = ("", s).
Proof.
  induction s as [|a s IH]; [done |]. simpl.
  intros [Ha Hs]%orb_false_elim. by rewrite (IH Hs), Ha.
Qed.

Lemma rcut_app_no_sep (c : ascii) (s t : string) :
  Str.contains c t = false ->
  Str.rcut c (s +:+ t) = (fst (Str.rcut c s), snd (Str.rcut c s) +:+ t).
Proof.
  intros Ht. induction s as [|a s IH]; simpl.
  - by apply rcut_no_sep.
  - rewrite IH. destruct (Str.rcut c s) as [h t']. simpl.
    destruct (Str.nonempty h); [done |]. by destruct (Ascii.eqb a c).
Qed.

(** An extension without a separator does not change the directory. *)
Lemma dirname_app_no_sep (s t : string) :
  Str.contains os_path.sep t = false ->
  os_path.dirname (s +:+ t) = os_path.dirname s.
Proof.
  intros Ht. unfold os_path.dirname, os_path.split.
  rewrite rcut_app_no_sep by done.
  destruct (Str.rcut os_path.sep s) as [h t']. simpl.
  by destruct (Str.nonempty h && negb (Str.all_char os_path.sep h)).
Qed.

Lemma nonempty_app_r (s t : string) :
  Str.nonempty t = true -> Str.nonempty (s +:+ t) = true.
Proof. by destruct s, t. Qed.

Lemma all_char_app (c : ascii) (s t : string) :
  Str.all_char c (s +:+ t) = Str.all_char c s && Str.all_char c t.
Proof.
  induction s as [|a s IH]; simpl; [done |].
  by rewrite IH, andb_assoc.
Qed.

(** What [stat] finds at a path that does not consist of separators. *)
Lemma stat_app (d : gmap string entry) (s t : string) :
  Str.nonempty t = true ->
  Str.all_char os_path.sep t = false ->
  stat d (s +:+ t) = d !! (s +:+ t).
Proof.
  intros Hn Ha. unfold stat.
  rewrite nonempty_app_r, all_char_app, Ha by done. by rewrite andb_false_r.
Qed.

Lemma str_app_inv_tail (s1 s2 t : string) : s1 +:+ t = s2 +:+ t -> s1 = s2.
Proof.
  revert s2. induction s1 as [|a s1 IH]; intros [|b s2]; simpl; [done | | |].
  - intros H. apply (f_equal String.length) in H. simpl in H.
    rewrite str_length_app in H. lia.
  - intros H. apply (f_equal String.length) in H. simpl in H.
    rewrite str_length_app in H. lia.
  - intros [= -> H]. f_equal. by apply IH.
Qed.

Lemma raw_ne_shape (s1 s2 : string) : s1 +:+ ".raw" <> s2 +:+ ".shape".
Proof.
  intros H. apply (f_equal (Str.endswith "w")) in H.
  by rewrite !endswith_app in H.
Qed.

(** A file is writable where a file is, in the directory of its stem. *)
Lemma ready_writable (d : gmap string entry) (stem ext : string)
    (content : list byte) :
  Str.nonempty ext = true ->
  Str.contains os_path.sep ext = false ->
  Str.all_char os_path.sep ext = false ->
  is_directory d (os_path.dirname stem) = true ->
  d !! (stem +:+ ext) = Some (File content) ->
  writable d (stem +:+ ext).
Proof.
  intros Hn Hc Ha Hd Hf. split; [by apply nonempty_app_r |]. split.
  - unfold parent_error. rewrite dirname_app_no_sep by done.
    unfold is_directory in Hd.
    destruct (Str.nonempty (os_path.dirname stem)); [| done].
    by destruct (stat d (os_path.dirname stem)) as [[|c] |].
  - rewrite stat_app by done. by rewrite Hf.
Qed.

(** *** The loop over the leaves *)

Lemma for_each_cons_inv {A : Type} (x : A) (xs : list A) (body : A -> io unit)
    (w w' : world) (r : outcome unit) :
  for_each (x :: xs) body w = (w', r) ->
  (exists e, body x w = (w', Raise e) /\ r = Raise e)
  \/ (exists w1, body x w = (w1, Ok tt) /\ for_each xs body w1 = (w', r)).
Proof.
  simpl. unfold bind. destruct (body x w) as [w1 [[] | e]].
  - intros H. right. by exists w1.
  - intros [= <- <-]. left. by exists e.
Qed.

Lemma write_leaf_extends (base_dir : string) (leaf : list string * ndarray)
    (w w' : world) (r : outcome unit) :
  write_leaf base_dir leaf w = (w', r) ->
  extends (disk w) (disk w') /\ (wf_disk (disk w) -> wf_disk (disk w')).
Proof. intros H%write_leaf_run. by apply (leaf_run_extends base_dir leaf w w' r). Qed.

(** The export of a leaf does not change the host. *)
Lemma write_leaf_faults (base_dir : string) (leaf : list string * ndarray)
    (w w' : world) (r : outcome unit) :
  write_leaf base_dir leaf w = (w', r) -> faults w' = faults w.
Proof.
  intros H%write_leaf_run.
  destruct H as
    [w1 e Hm | w1 e Hm _ | w1 c j raw Hm _ _ _ | w1 e raw d2 Hm _ _
    | w1 c j raw shp d2 Hm _ _ _ _ | w1 raw shp d2 Hm _ _];
    by apply makedirs_mkdirs_only in Hm as (d & jm & -> & _).
Qed.

Lemma for_each_extends (base_dir : string) (l : list (list string * ndarray)) :
  forall w w' r,
    for_each l (write_leaf base_dir) w = (w', r) ->
    extends (disk w) (disk w') /\ (wf_disk (disk w) -> wf_disk (disk w')).
Proof.
  induction l as [|x l IH]; intros w w' r.
  - intros [= <- <-]. split; [apply extends_refl | done].
  - intros [(e & H & _) | (w1 & H & Hrest)]%for_each_cons_inv.
    + by apply write_leaf_extends in H.
    + apply write_leaf_extends in H as [H1 H2].
      apply IH in Hrest as [H3 H4].
      split; [by apply (extends_trans _ (disk w1)) | auto].
Qed.

(** Both files of a leaf were written: what the directory tree holds
    afterwards. *)
Lemma write_leaf_done (base_dir : string) (leaf : list string * ndarray)
    (w w' : world) :
  write_leaf base_dir leaf w = (w', Ok tt) ->
  let stem := os_path.join base_dir (fst leaf) in
  exists w1,
    os.makedirs (os_path.dirname stem) w = (w1, Ok tt)
    /\ writable (disk w1) (stem +:+ ".raw")
    /\ writable (<[stem +:+ ".raw" := File (tobytes (snd leaf))]> (disk w1))
                (stem +:+ ".shape")
    /\ disk w'
       = <[stem +:+ ".shape" := File (encode (serialize_shape (snd leaf)))]>
           (<[stem +:+ ".raw" := File (tobytes (snd leaf))]> (disk w1)).
Proof.
  intros H%write_leaf_run. inversion H; subst. by exists w1.
Qed.

Lemma last_write_app (ws1 ws2 : list (string * list byte)) (path : string) :
  last_write (ws1 ++ ws2) path
  = match last_write ws2 path with
    | Some data => Some data
    | None => last_write ws1 path
    end.
Proof.
  induction ws1 as [|[q data] ws1 IH]; simpl.
  - by destruct (last_write ws2 path).
  - rewrite IH. by destruct (last_write ws2 path).
Qed.

Lemma last_write_exports_of (base_dir : string) (leaf : list string * ndarray)
    (path : string) :
  let stem := os_path.join base_dir (fst leaf) in
  last_write (exports_of base_dir leaf) path
  = if decide (stem +:+ ".shape" = path)
    then Some (encode (serialize_shape (snd leaf)))
    else if decide (stem +:+ ".raw" = path) then Some (tobytes (snd leaf))
    else None.
Proof.
  simpl.
  destruct (decide _) as [-> | Hs].
  - by rewrite String.eqb_refl.
  - apply String.eqb_neq in Hs. rewrite Hs.
    destruct (decide _) as [-> | Hr].
    + by rewrite String.eqb_refl.
    + apply String.eqb_neq in Hr. by rewrite Hr.
Qed.

(** After a run that reached its end, a path holds what was last written
    to it; a path to which nothing was written holds what it held,
    unless a directory was made there. *)
Lemma for_each_disk (base_dir : string) (l : list (list string * ndarray)) :
  forall w w',
    for_each l (write_leaf base_dir) w = (w', Ok tt) ->
    forall path,
      match last_write (exports base_dir l) path with
      | Some data => disk w' !! path = Some (File data)
      | None =>
          disk w' !! path = disk w !! path
          \/ (disk w !! path = None /\ disk w' !! path = Some Directory)
      end.
Proof.
  induction l as [|x l IH]; intros w w'.
  - intros [= <-] path. by left.
  - intros [(e & _ & [=]) | (w1 & Hx & Hrest)]%for_each_cons_inv path.
    specialize (IH _ _ Hrest path).
    change (exports base_dir (x :: l))
      with (exports_of base_dir x ++ exports base_dir l).
    rewrite last_write_app.
    destruct (last_write (exports base_dir l) path) as [data |]; [done |].
    apply write_leaf_done in Hx as (w0 & Hm & _ & _ & Hd).
    apply makedirs_mkdirs_only in Hm as (d0 & j0 & -> & Hg & _).
    simpl in Hd. rewrite last_write_exports_of. rewrite Hd in IH.
    destruct (decide _) as [<- | Hs].
    + rewrite lookup_insert_eq in IH. by destruct IH as [-> | [[=] _]].
    + rewrite lookup_insert_ne in IH by done.
      destruct (decide _) as [<- | Hr].
      * rewrite lookup_insert_eq in IH. by destruct IH as [-> | [[=] _]].
      * rewrite lookup_insert_ne in IH by done.
        destruct (Hg path) as [E | [E1 E2]], IH as [E' | [E1' E2']].
        -- left. congruence.
        -- right. split; congruence.
        -- right. split; congruence.
        -- congruence.
Qed.

Lemma last_write_Some (ws : list (string * list byte)) (path : string)
    (data : list byte) :
  last_write ws path = Some data -> In (path, data) ws.
Proof.
  induction ws as [|[q data'] ws IH]; simpl; [done |].
  destruct (last_write ws path) as [data'' |].
  - intros [= ->]. right. by apply IH.
  - destruct (String.eqb q path) eqn:E; [| done].
    apply String.eqb_eq in E as ->. intros [= ->]. by left.
Qed.

Lemma last_write_None (ws : list (string * list byte)) (path : string) :
  ~ In path (map fst ws) -> last_write ws path = None.
Proof.
  intros Hnot. destruct (last_write ws path) as [data |] eqn:E; [| done].
  apply last_write_Some in E. destruct Hnot.
  apply in_map_iff. by exists (path, data).
Qed.

Lemma last_write_NoDup (ws : list (string * list byte)) (path : string)
    (data : list byte) :
  NoDup (map fst ws) -> In (path, data) ws -> last_write ws path = Some data.
Proof.
  induction ws as [|[q data'] ws IH]; simpl; [done |].
  intros [Hq Hws]%NoDup_cons [[= -> ->] | Hin].
  - rewrite last_write_None by (by rewrite <- list_elem_of_In).
    by rewrite String.eqb_refl.
  - by rewrite IH.
Qed.

Lemma in_exports (base_dir : string) (l : list (list string * ndarray))
    (path : string) :
  In path (map fst (exports base_dir l)) ->
  exists leaf,
    In leaf l
    /\ (path = os_path.join base_dir (fst leaf) +:+ ".raw"
        \/ path = os_path.join base_dir (fst leaf) +:+ ".shape").
Proof.
  intros [[q data] [<- Hin]]%in_map_iff.
  apply in_flat_map in Hin as [leaf [Hleaf Hin]]. exists leaf. split; [done |].
  destruct Hin as [[= <- _] | [[= <- _] | []]]; [by left | by right].
Qed.

Lemma NoDup_exports (base_dir : string) (l : list (list string * ndarray)) :
  NoDup (map (fun leaf => os_path.join base_dir (fst leaf)) l) ->
  NoDup (map fst (exports base_dir l)).
Proof.
  induction l as [|x l IH]; simpl; [constructor |].
  intros [Hx Hl]%NoDup_cons.
  assert (Hfresh : forall ext,
    (ext = ".raw" \/ ext = ".shape") ->
    ~ In (os_path.join base_dir (fst x) +:+ ext) (map fst (exports base_dir l))).
  { intros ext Hext [y [Hy Heq]]%in_exports. apply Hx.
    apply list_elem_of_In, in_map_iff. exists y. split; [| done].
    destruct Hext as [-> | ->], Heq as [Heq | Heq].
    - symmetry. by apply str_app_inv_tail in Heq.
    - by apply raw_ne_shape in Heq.
    - symmetry in Heq. by apply raw_ne_shape in Heq.
    - symmetry. by apply str_app_inv_tail in Heq. }
  apply NoDup_cons. split.
  - rewrite list_elem_of_In. simpl. intros [Heq | Hin].
    + symmetry in Heq. by apply raw_ne_shape in Heq.
    + by apply (Hfresh ".raw") in Hin; [| left].
  - apply NoDup_cons. split; [| by apply IH].
    rewrite list_elem_of_In.
    intros Hin. by apply (Hfresh ".shape") in Hin; [| right].
Qed.


(** The leaves of a tree whose dictionaries do not repeat keys, all
    segments, have stems that are pairwise distinct. *)
Lemma NoDup_stems (base_dir : string) (params : pytree) :
  unique_keys params = true ->
  keys_all is_segment params = true ->
  NoDup (map (fun leaf => os_path.join base_dir (fst leaf)) (leaves params)).
Proof.
  intros Hu Hk. rewrite <- (List.map_map fst (os_path.join base_dir)).
  apply NoDup_fmap_2_strong; [| by apply NoDup_leaves].
  intros p q [[p' a] [<- Hp]]%list_elem_of_In%in_map_iff
             [[q' b] [<- Hq]]%list_elem_of_In%in_map_iff Heq.
  simpl in *. apply (join_segments_inj base_dir); [| | done].
  - by apply (in_leaves_keys_all _ params Hk p' a).
  - by apply (in_leaves_keys_all _ params Hk q' b).
Qed.

Lemma keys_all_impl (P Q : string -> bool) (tree : pytree) :
  (forall k, P k = true -> Q k = true) ->
  keys_all P tree = true -> keys_all Q tree = true.
Proof.
  intros HPQ. induction tree as [array | items IH] using pytree_ind; [done |].
  simpl. rewrite !forallb_forall. intros H [k child] Hin.
  specialize (H _ Hin). simpl in H. apply andb_true_iff in H as [Hk Hc].
  rewrite Forall_forall in IH. apply andb_true_iff. split; [by apply HPQ |].
  apply (IH (k, child)); [by apply list_elem_of_In | done].
Qed.

Section WriteParams.

Variable expanduser : string -> string.


End WriteParams.

(** *** Running again *)

Lemma ready_extends (base_dir : string) (leaf : list string * ndarray)
    (d d' : gmap string entry) :
  extends d d' -> ready base_dir leaf d -> ready base_dir leaf d'.
Proof.
  intros Hext (Hd & [c Hr] & [c' Hs]). split; [| split].
  - by apply (is_directory_extends d).
  - specialize (Hext (os_path.join base_dir (fst leaf) +:+ ".raw")).
    by rewrite Hr in Hext.
  - specialize (Hext (os_path.join base_dir (fst leaf) +:+ ".shape")).
    by rewrite Hs in Hext.
Qed.

Lemma write_leaf_ready (base_dir : string) (leaf : list string * ndarray)
    (w w' : world) :
  write_leaf base_dir leaf w = (w', Ok tt) -> ready base_dir leaf (disk w').
Proof.
  intros (w1 & Hm & Hr & Hs & ->)%write_leaf_done.
  set (stem := os_path.join base_dir (fst leaf)) in *.
  split; [| split].
  - apply (is_directory_extends (disk w1)).
    { eapply extends_trans; by apply extends_write. }
    destruct Hr as (_ & Hp & _). apply parent_error_is_directory in Hp.
    rewrite dirname_app_no_sep in Hp by done.
    destruct Hp as [Hp | Hp]; [| done].
    rewrite Hp in Hm. by apply makedirs_empty in Hm.
  - rewrite lookup_insert_ne by (symmetry; apply raw_ne_shape).
    rewrite lookup_insert_eq. eauto.
  - rewrite lookup_insert_eq. eauto.
Qed.

Lemma for_each_ready (base_dir : string) (l : list (list string * ndarray)) :
  forall w w',
    for_each l (write_leaf base_dir) w = (w', Ok tt) ->
    forall leaf, In leaf l -> ready base_dir leaf (disk w').
Proof.
  induction l as [|x l IH]; intros w w'; [done |].
  intros [(e & _ & [=]) | (w1 & Hx & Hrest)]%for_each_cons_inv leaf [<- | Hin].
  - apply (ready_extends _ _ (disk w1)).
    + by apply for_each_extends in Hrest as [? _].
    + by apply write_leaf_ready in Hx.
  - by apply (IH _ _ Hrest).
Qed.

(** Exporting a leaf again, over its own files: only the host can make it
    fail, and it makes no directory. *)
Lemma write_leaf_again (base_dir : string) (leaf : list string * ndarray)
    (w w' : world) (r : outcome unit) :
  wf_disk (disk w) ->
  ready base_dir leaf (disk w) ->
  write_leaf base_dir leaf w = (w', r) ->
  done_or_host_fault w r
  /\ (r = Ok tt ->
      disk w'
      = <[os_path.join base_dir (fst leaf) +:+ ".shape"
          := File (encode (serialize_shape (snd leaf)))]>
          (<[os_path.join base_dir (fst leaf) +:+ ".raw"
             := File (tobytes (snd leaf))]> (disk w))).
Proof.
  intros Hwf (Hd & [c Hr] & [c' Hs]) Hrun%write_leaf_run.
  pose proof (makedirs_exists _ _ Hwf Hd) as Hm.
  set (stem := os_path.join base_dir (fst leaf)) in *.
  assert (Hwr : writable (disk w) (stem +:+ ".raw"))
    by by apply (ready_writable _ _ _ c).
  assert (Hws : forall data,
    writable (<[stem +:+ ".raw" := File data]> (disk w)) (stem +:+ ".shape")).
  { intros data. apply (ready_writable _ _ _ c'); try done.
    - apply (is_directory_extends (disk w)); [by apply extends_write | done].
    - rewrite lookup_insert_ne; [done | apply raw_ne_shape]. }
  unfold done_or_host_fault.
  inversion Hrun as
    [w1 e Hm' | w1 e Hm' He | w1 c0 j raw Hm' _ Hf _ | w1 e raw d2 Hm' _ He
    | w1 c0 j raw shp d2 Hm' _ _ Hf _ | w1 raw shp d2 Hm' _ _];
    subst; fold stem in Hm'; rewrite Hm in Hm'; simplify_eq.
  - split; [| done]. destruct He as [[-> He] | He]; [by right | done].
  - split; [by right | done].
  - split; [| done]. destruct He as [[-> He] | He]; [by right |].
    destruct He. apply Hws.
  - split; [by right | done].
  - split; [by left | done].
Qed.

Lemma for_each_again (base_dir : string) (l : list (list string * ndarray)) :
  forall w w' r,
    wf_disk (disk w) ->
    (forall leaf, In leaf l -> ready base_dir leaf (disk w)) ->
    for_each l (write_leaf base_dir) w = (w', r) ->
    done_or_host_fault w r
    /\ (r = Ok tt ->
        forall path,
          disk w' !! path
          = match last_write (exports base_dir l) path with
            | Some data => Some (File data)
            | None => disk w !! path
            end).
Proof.
  induction l as [|x l IH]; intros w w' r Hwf Hready.
  - intros [= <- <-]. split; [by left | done].
  - intros [(e & Hx & ->) | (w1 & Hx & Hrest)]%for_each_cons_inv.
    + apply write_leaf_again in Hx as [Hx _]; [done | done |].
      apply Hready. by left.
    + pose proof (write_leaf_extends _ _ _ _ _ Hx) as [Hext Hwf1].
      pose proof (write_leaf_faults _ _ _ _ _ Hx) as Hfaults.
      apply write_leaf_again in Hx as [_ Hx]; [| done | apply Hready; by left].
      specialize (Hx eq_refl).
      apply IH in Hrest as [Hr Hrest]; [| by apply Hwf1 |].
      2: { intros leaf Hin. apply (ready_extends _ _ (disk w)); [done |].
           apply Hready. by right. }
      split.
      { destruct Hr as [-> | [-> Hr]]; [by left | right].
        split; [done |]. unfold faulty in *. by rewrite <- Hfaults. }
      intros -> path. rewrite (Hrest eq_refl path).
      change (exports base_dir (x :: l))
        with (exports_of base_dir x ++ exports base_dir l).
      rewrite last_write_app.
      destruct (last_write (exports base_dir l) path) as [data |]; [done |].
      rewrite last_write_exports_of, Hx.
      destruct (decide _) as [<- | Hs]; [by rewrite lookup_insert_eq |].
      rewrite lookup_insert_ne by done.
      destruct (decide _) as [<- | Hraw]; [by rewrite lookup_insert_eq |].
      by rewrite lookup_insert_ne.
Qed.

Section WriteParamsTwice.

Variable expanduser : string -> string.

(** C6. Running [write_params] again on the same tree and base
    directory, over the output of a run that reached its end, can fail
    only by a fault of the host, and on a host without faults it reaches
    its end; when it does, the directory tree is the one the first run
    left: every file holds the same bytes, and nothing was added or
    removed. *)
Theorem write_params_idempotent (params : pytree) (base_dir : string)
    (w0 w1 w1' w2 : world) (r2 : outcome unit) :
  wf_disk (disk w0) ->
  write_params expanduser params base_dir w0 = (w1, Ok tt) ->
  disk w1' = disk w1 ->
  write_params expanduser params base_dir w1' = (w2, r2) ->
  done_or_host_fault w1' r2
  /\ ((forall j ev, faults w1' j ev = false) -> r2 = Ok tt)
  /\ (r2 = Ok tt -> disk w2 = disk w1).
Proof.
  unfold write_params. intros Hwf Hrun1 Hsame Hrun2.
  pose proof (for_each_ready _ _ _ _ Hrun1) as Hready.
  pose proof (for_each_extends _ _ _ _ _ Hrun1) as [_ Hwf1].
  pose proof (for_each_disk _ _ _ _ Hrun1) as Hdisk.
  rewrite <- Hsame in Hready, Hwf1.
  apply for_each_again in Hrun2 as [Hr2 Hrun2]; [| by apply Hwf1 | done].
  split; [done |]. split.
  { intros Hquiet. destruct Hr2 as [-> | [_ (j & ev & Hf)]]; [done |].
    by rewrite Hquiet in Hf. }
  intros ->. apply map_eq. intros path.
  rewrite (Hrun2 eq_refl path), Hsame. specialize (Hdisk path).
  by destruct (last_write _ path).
Qed.

End WriteParamsTwice.

(** *** The journal *)

Lemma split_mkdirs (jm rest before after : list event) (q : string) :
  Forall is_mkdir jm ->
  jm ++ rest = before ++ EvOpen q :: after ->
  exists before', before = jm ++ before' /\ rest = before' ++ EvOpen q :: after.
Proof.
  intros Hjm. revert before.
  induction Hjm as [|ev jm Hev _ IH]; intros before; simpl.
  - intros ->. by exists before.
  - destruct before as [|b before]; simpl; intros [= -> H].
    + done.
    + apply IH in H as (before' & -> & ->). by exists before'.
Qed.

Lemma in_mkdirs (jm : list event) (q : string) :
  Forall is_mkdir jm -> ~ In (EvOpen q) jm.
Proof.
  intros Hjm Hin. rewrite Forall_forall in Hjm.
  by apply list_elem_of_In, Hjm in Hin.
Qed.

Ltac split_journal before :=
  repeat (destruct before as [|? before]; simpl in *; simplify_eq;
          try match goal with
              | H : _ +:+ ".raw" = _ +:+ ".shape" |- _ =>
                  by apply raw_ne_shape in H
              end).

Lemma leaf_journal_order (base_dir : string) (leaf : list string * ndarray)
    (jm j : list event) :
  Forall is_mkdir jm ->
  leaf_journal base_dir leaf j ->
  raw_before_shape base_dir [leaf] (jm ++ j).
Proof.
  intros Hjm Hj before after stem Heq.
  apply split_mkdirs in Heq as (before' & -> & Heq); [| done].
  exists (fst leaf), (snd leaf).
  unfold leaf_journal, cut_short, written in Hj.
  destruct Hj as [-> | [[-> | [-> | ->]] | [-> | (js & -> & [[-> | [-> | ->]] | ->])]]];
    split_journal before';
    match goal with
    | H : _ +:+ ".shape" = _ +:+ ".shape" |- _ =>
        apply str_app_inv_tail in H as <-
    end;
    exists jm; (split; [destruct leaf; by left | done]).
Qed.

Lemma raw_before_shape_nil (base_dir : string)
    (l : list (list string * ndarray)) :
  raw_before_shape base_dir l [].
Proof. intros [|? before] after stem; discriminate. Qed.

(** The order holds of a journal when it holds of its two parts. *)
Lemma raw_before_shape_app (base_dir : string)
    (l1 l2 : list (list string * ndarray)) (j1 j2 : list event) :
  raw_before_shape base_dir l1 j1 ->
  raw_before_shape base_dir l2 j2 ->
  raw_before_shape base_dir (l1 ++ l2) (j1 ++ j2).
Proof.
  intros H1 H2 before after stem Heq.
  apply List.app_eq_app in Heq as [mid [[-> Hmid] | [-> Hmid]]].
  - destruct mid as [|ev mid]; simpl in Hmid.
    + destruct (H2 [] after stem) as (path & array & before' & Hin & -> & Hb);
        [done |].
      by destruct before'.
    + injection Hmid as <- ->.
      destruct (H1 before mid stem) as (path & array & before' & Hin & -> & ->);
        [done |].
      exists path, array, before'. split; [| done].
      apply in_app_iff. by left.
  - destruct (H2 mid after stem) as (path & array & before' & Hin & -> & ->);
      [done |].
    exists path, array, (j1 ++ before'). split; [| split; [done |]].
    + apply in_app_iff. by right.
    + by rewrite List.app_assoc.
Qed.

Lemma leaf_run_journal (base_dir : string) (leaf : list string * ndarray)
    (w w' : world) (r : outcome unit) :
  leaf_run base_dir leaf w w' r -> journal_ok base_dir [leaf] w w'.
Proof.
  intros H.
  assert (Hgen : forall w1 d j,
    mkdirs_only w w1 ->
    leaf_journal base_dir leaf j ->
    (forall stem, In (EvOpen (stem +:+ ".shape")) j ->
       exists content, d !! (stem +:+ ".raw") = Some (File content)) ->
    journal_ok base_dir [leaf] w (advance w1 d j)).
  { intros w1 d j (d1 & jm & -> & _ & Hjm & _) Hj Hd.
    exists (jm ++ j). split; [simpl; by rewrite List.app_assoc |].
    split; [by apply leaf_journal_order |].
    intros stem [Hin | Hin]%in_app_iff; [by apply in_mkdirs in Hin | auto]. }
  assert (Hraw : forall stem j,
    cut_short (os_path.join base_dir (fst leaf) +:+ ".raw")
              (tobytes (snd leaf)) j
    \/ j = written (os_path.join base_dir (fst leaf) +:+ ".raw")
                   (tobytes (snd leaf)) ->
    ~ In (EvOpen (stem +:+ ".shape")) j).
  { intros stem j [[-> | [-> | ->]] | ->]; simpl;
      intros Hin; repeat destruct Hin as [Hin | Hin]; try done;
      simplify_eq;
      match goal with
      | H : _ +:+ ".raw" = _ +:+ ".shape" |- _ => by apply raw_ne_shape in H
      end. }
  assert (Hshape : forall stem j,
    In (EvOpen (stem +:+ ".shape"))
       (written (os_path.join base_dir (fst leaf) +:+ ".raw")
                (tobytes (snd leaf)) ++ j) ->
    cut_short (os_path.join base_dir (fst leaf) +:+ ".shape")
              (encode (serialize_shape (snd leaf))) j
    \/ j = written (os_path.join base_dir (fst leaf) +:+ ".shape")
                   (encode (serialize_shape (snd leaf))) ->
    stem = os_path.join base_dir (fst leaf)).
  { intros stem j [Hin | Hin]%in_app_iff Hj.
    - exfalso. apply (Hraw stem _ (or_intror eq_refl) Hin).
    - destruct Hj as [[-> | [-> | ->]] | ->]; simpl in Hin;
        repeat destruct Hin as [Hin | Hin]; try done; simplify_eq;
        match goal with
        | H : _ +:+ ".shape" = _ +:+ ".shape" |- _ =>
            symmetry; by apply str_app_inv_tail in H
        end. }
  destruct H as
    [w1 e Hm | w1 e Hm _ | w1 c j raw Hm Hr _ Hj | w1 e raw d2 Hm Hr _
    | w1 c j raw shp d2 Hm Hr Hs _ Hj | w1 raw shp d2 Hm Hr Hs];
    apply makedirs_mkdirs_only in Hm.
  - rewrite <- (advance_nil w1). apply Hgen; [done | by left | done].
  - rewrite <- (advance_nil w1). apply Hgen; [done | by left | done].
  - apply Hgen; [done | right; by left |].
    intros stem Hin. exfalso. apply (Hraw stem j); [by left | done].
  - apply Hgen; [done | right; right; by left |].
    intros stem Hin. exfalso. apply (Hraw stem _ (or_intror eq_refl) Hin).
  - apply Hgen; [done | right; right; right; exists j; by split; [| left] |].
    intros stem ->%Hshape; [| by left].
    rewrite lookup_insert_ne by (symmetry; apply raw_ne_shape).
    unfold d2, raw. rewrite lookup_insert_eq. eauto.
  - apply Hgen; [done | right; right; right; eexists; by split; [| right] |].
    intros stem ->%Hshape; [| by right].
    rewrite lookup_insert_ne by (symmetry; apply raw_ne_shape).
    unfold d2, raw. rewrite lookup_insert_eq. eauto.
Qed.

Lemma journal_ok_refl (base_dir : string) (l : list (list string * ndarray))
    (w : world) :
  journal_ok base_dir l w w.
Proof.
  exists []. split; [by rewrite List.app_nil_r |].
  split; [apply raw_before_shape_nil | done].
Qed.

Lemma journal_ok_app (base_dir : string) (l1 l2 : list (list string * ndarray))
    (w1 w2 w3 : world) :
  extends (disk w2) (disk w3) ->
  journal_ok base_dir l1 w1 w2 ->
  journal_ok base_dir l2 w2 w3 ->
  journal_ok base_dir (l1 ++ l2) w1 w3.
Proof.
  intros Hext (j1 & E1 & Ho1 & Hd1) (j2 & E2 & Ho2 & Hd2).
  exists (j1 ++ j2). split; [by rewrite E2, E1, List.app_assoc |].
  split; [by apply raw_before_shape_app |].
  intros stem [Hin | Hin]%in_app_iff; [| by apply Hd2].
  destruct (Hd1 stem Hin) as [c Hc].
  specialize (Hext (stem +:+ ".raw")). by rewrite Hc in Hext.
Qed.

Lemma for_each_journal (base_dir : string) (l : list (list string * ndarray)) :
  forall w w' r,
    for_each l (write_leaf base_dir) w = (w', r) ->
    journal_ok base_dir l w w'.
Proof.
  induction l as [|x l IH]; intros w w' r.
  - intros [= <- <-]. apply journal_ok_refl.
  - intros [(e & Hx & _) | (w1 & Hx & Hrest)]%for_each_cons_inv.
    + apply write_leaf_run, leaf_run_journal in Hx.
      apply (journal_ok_app base_dir [x] l w w' w');
        [apply extends_refl | done | apply journal_ok_refl].
    + apply write_leaf_run, leaf_run_journal in Hx.
      apply (journal_ok_app base_dir [x] l w w1 w'); [| done | by eapply IH].
      by apply for_each_extends in Hrest as [? _].
Qed.

(** ** The script as a whole *)

Section Main.

Variable expanduser : string -> string.
Variable abspath : string -> string.
Variable load_and_format_params :
  string -> gmap string entry -> outcome pytree.

(** C10. Whatever the outcome of a run of [write_params], and so at
    every point at which a fault of the host can stop it, the journal
    of the run opens a shape file only right after the raw file of the
    same leaf was opened, written with the bytes of the array and
    closed; and the raw file of every shape file the run opened is on
    the disk when the run ends.  (That a run can end with a raw file
    and without its shape file is [raw_without_shape].) *)
Theorem raw_written_before_shape_opened (params : pytree)
    (base_dir : string) (w w' : world) (r : outcome unit) :
  write_params expanduser params base_dir w = (w', r) ->
  exists j,
    journal w' = journal w ++ j
    /\ raw_before_shape (expanduser base_dir) (flatten_params params) j
    /\ (forall stem, In (EvOpen (stem +:+ ".shape")) j ->
          exists content,
            disk w' !! (stem +:+ ".raw") = Some (File content)).
Proof. apply for_each_journal. Qed.

(** C7. When the loader fails on the resolved source directory, [main]
    ends with the exception of the loader, and has made no directory
    and written no file: the directory tree and the journal are as
    they were. *)
Theorem main_load_failure (args : namespace) (w : world) (e : exn) :
  load_and_format_params
    (expanduser (resolve_source_dir expanduser abspath args)) (disk w)
  = Raise e ->
  exists w',
    main expanduser abspath load_and_format_params args w = (w', Raise e)
    /\ disk w' = disk w
    /\ journal w' = journal w.
Proof.
  intros Hload. unfold main, read_parameter, bind, print,
    jax_config_update_platform. simpl. rewrite Hload. eauto.
Qed.

(** C8. Without [--target_dir], and with an empty one, the target is
    the entry [raw] of the resolved source directory (the source,
    home-expanded and made absolute); a non-empty [--target_dir] is
    used, home-expanded and made absolute. *)
Theorem resolve_target_dir_default (source : string) :
  let source_dir := abspath (expanduser source) in
  resolve_target_dir expanduser abspath (Namespace source None)
  = source_dir +:+ glue source_dir +:+ "raw"
  /\ resolve_target_dir expanduser abspath (Namespace source (Some ""))
     = source_dir +:+ glue source_dir +:+ "raw"
  /\ (forall c target,
        resolve_target_dir expanduser abspath
          (Namespace source (Some (String c target)))
        = abspath (expanduser (String c target))).
Proof.
  unfold resolve_target_dir, resolve_source_dir. simpl.
  by rewrite join_step_segment.
Qed.

End Main.


Lemma wf_disk_empty : wf_disk ∅.
Proof. intros path e H. by rewrite lookup_empty in H. Qed.

(** The scenario of the specification: one 2x2 array of 32-bit floats. *)
Example scenario_files :
  let w' := fst (write_params (posix.expanduser "/root") scenario_tree "/out"
                   fresh_world) in
  map_to_list (disk w')
  = [ ("/out/layer0/w.shape", File (encode "float32,2,2"));
      ("/out/layer0/w.raw",
       File [x00; x00; x80; x3f; x00; x00; x00; x40;
             x00; x00; x40; x40; x00; x00; x80; x40]);
      ("/out/layer0", Directory);
      ("/out", Directory) ].
Proof. vm_compute. reflexivity. Qed.



Lemma write_params_idempotent_witness :
  let w1 := fst (write_params (posix.expanduser "/root") scenario_tree "/out"
                   fresh_world) in
  let run2 := write_params (posix.expanduser "/root") scenario_tree "/out" w1 in
  done_or_host_fault w1 (snd run2)
  /\ ((forall j ev, faults w1 j ev = false) -> snd run2 = Ok tt)
  /\ (snd run2 = Ok tt -> disk (fst run2) = disk w1).
Proof.
  intros w1 run2.
  apply (write_params_idempotent (posix.expanduser "/root") scenario_tree
           "/out" fresh_world w1 w1 (fst run2) (snd run2)).
  - apply wf_disk_empty.
  - vm_compute. reflexivity.
  - reflexivity.
  - apply surjective_pairing.
Defined.

(** A run that the host stops when it opens the shape file ends with the
    raw file on the disk and without the shape file. *)
Example raw_without_shape :
  let run := write_params (posix.expanduser "/root") scenario_tree "/out"
               shape_refused_world in
  snd run = Raise OSError
  /\ (exists content, disk (fst run) !! "/out/layer0/w.raw" = Some (File content))
  /\ disk (fst run) !! "/out/layer0/w.shape" = None.
Proof.
  intros run. split; [vm_compute; reflexivity |].
  split; [eexists |]; vm_compute; reflexivity.
Qed.

Lemma raw_written_before_shape_opened_witness :
  let run := write_params (posix.expanduser "/root") scenario_tree "/out"
               fresh_world in
  exists j,
    journal (fst run) = journal fresh_world ++ j
    /\ raw_before_shape "/out" (flatten_params scenario_tree) j
    /\ (forall stem, In (EvOpen (stem +:+ ".shape")) j ->
          exists content,
            disk (fst run) !! (stem +:+ ".raw") = Some (File content)).
Proof.
  intros run.
  apply (raw_written_before_shape_opened (posix.expanduser "/root")
           scenario_tree "/out" fresh_world (fst run) (snd run)).
  apply surjective_pairing.
Defined.

Lemma main_load_failure_witness :
  let args := Namespace "~/ckpt" None in
  exists w',
    main (posix.expanduser "/root") (posix.abspath "/root") no_checkpoint
      args fresh_world
    = (w', Raise (LoaderError "no checkpoint"))
    /\ disk w' = disk fresh_world
    /\ journal w' = journal fresh_world.
Proof.
  intros args.
  apply (main_load_failure (posix.expanduser "/root") (posix.abspath "/root")
           no_checkpoint args fresh_world).
  reflexivity.
Defined.



Example resolve_target_dir_posix :
  resolve_target_dir (posix.expanduser "/home/u") (posix.abspath "/work")
    (Namespace "~/ckpt/" None) = "/home/u/ckpt/raw"
  /\ resolve_target_dir (posix.expanduser "/home/u") (posix.abspath "/work")
       (Namespace "ckpt" (Some "")) = "/work/ckpt/raw"
  /\ resolve_target_dir (posix.expanduser "/home/u") (posix.abspath "/work")
       (Namespace "ckpt" (Some "~/out/../raw2")) = "/home/u/raw2".
Proof. repeat split; reflexivity. Qed.

(** A tree that is a bare leaf, which the loader does not return, has
    the empty path. *)
Example bare_leaf_has_empty_path (array : ndarray) :
  flatten_params (Leaf array) = [([], array)].
Proof. reflexivity. Qed.

(** ** Runs that reach their end *)

Lemma quiet_advance (w : world) (d : gmap string entry) (j : list event) :
  quiet w -> quiet (advance w d j).
Proof. done. Qed.

Lemma quiet_not_faulty (w : world) : quiet w -> ~ faulty w.
Proof. intros Hq (j & ev & Hf). by rewrite Hq in Hf. Qed.


(** *** Joined paths *)

Lemma join_app (root : string) (p q : list string) :
  os_path.join root (p ++ q) = os_path.join (os_path.join root p) q.
Proof. apply fold_left_app. Qed.

Lemma all_char_segment (k : string) :
  is_segment k = true -> Str.all_char os_path.sep k = false.
Proof.
  intros H. pose proof (is_segment_nonempty _ H).
  apply is_segment_no_sep in H. destruct k as [|a k]; [done |].
  simpl in *. apply orb_false_elim in H as [-> _]. done.
Qed.

(** A stem with at least one segment under an anchor: it is not the
    root, and does not end with a separator. *)
Lemma join_segments_shape (root : string) (p : list string) :
  p <> [] ->
  forallb is_segment p = true ->
  Str.nonempty (os_path.join root p) = true
  /\ Str.all_char os_path.sep (os_path.join root p) = false
  /\ Str.endswith os_path.sep (os_path.join root p) = false.
Proof.
  intros Hne Hp. destruct (exists_last Hne) as (p0 & k & ->).
  rewrite forallb_app in Hp. apply andb_true_iff in Hp as [_ Hk].
  cbn [forallb] in Hk. rewrite andb_true_r in Hk.
  rewrite join_app. simpl. rewrite join_step_segment by done.
  rewrite <- str_app_assoc.
  split; [| split].
  - apply nonempty_app_r, nonempty_true. by apply is_segment_nonempty.
  - rewrite all_char_app, (all_char_segment k) by done. apply andb_false_r.
  - by apply is_segment_endswith.
Qed.

Lemma rstrip_snoc_sep (c : ascii) (s : string) :
  Str.nonempty s = true ->
  Str.endswith c s = false ->
  Str.rstrip c (s +:+ String c "") = s.
Proof.
  induction s as [|a s IH]; [done |]. intros _ He. simpl.
  destruct s as [|b s].
  - simpl in *. rewrite (proj2 (ascii_eqb_true c c) eq_refl). by rewrite He.
  - rewrite IH by done. done.
Qed.

Lemma rcut_snoc_segment (s k : string) :
  Str.contains os_path.sep k = false ->
  Str.rcut os_path.sep (s +:+ String "/" k) = (s +:+ "/", k).
Proof.
  intros Hk. induction s as [|a s IH]; simpl.
  - by rewrite rcut_no_sep.
  - rewrite IH. by destruct s.
Qed.

Lemma not_all_char_endswith (c : ascii) (s : string) :
  Str.nonempty s = true -> Str.endswith c s = false -> Str.all_char c s = false.
Proof.
  induction s as [|a s IH]; [done |]. intros _. simpl.
  destruct s as [|b s].
  - intros ->. done.
  - intros H. rewrite IH by done. apply andb_false_r.
Qed.

(** The head and the tail of a path that ends with a segment. *)
Lemma split_snoc_segment (s k : string) :
  Str.nonempty s = true ->
  Str.endswith os_path.sep s = false ->
  is_segment k = true ->
  os_path.split (s +:+ "/" +:+ k) = (s, k).
Proof.
  intros Hn He Hk. unfold os_path.split.
  change ("/" +:+ k) with (String "/" k).
  rewrite rcut_snoc_segment by by apply is_segment_no_sep.
  rewrite nonempty_app_r by done.
  rewrite all_char_app, (not_all_char_endswith _ s) by done. simpl.
  by rewrite rstrip_snoc_sep.
Qed.

Lemma split_root_segment (root k : string) :
  Str.nonempty root = true ->
  Str.all_char os_path.sep root = true ->
  is_segment k = true ->
  os_path.split (root +:+ k) = (root, k).
Proof.
  intros Hn Ha Hk. unfold os_path.split.
  rewrite rcut_app_no_sep by by apply is_segment_no_sep.
  rewrite rcut_all_char by done. simpl. by rewrite Hn, Ha.
Qed.

Lemma endswith_all_char (c : ascii) (s : string) :
  Str.nonempty s = true -> Str.all_char c s = true -> Str.endswith c s = true.
Proof.
  induction s as [|a s IH]; [done |]. intros _. simpl.
  intros [Ha Hs]%andb_true_iff. destruct s as [|b s]; [done |].
  by apply IH.
Qed.

(** Under an anchor, the head of a stem is the stem of the segments but
    the last, and its tail is the last segment. *)
Lemma split_join_snoc (root : string) (p : list string) (k : string) :
  anchored root = true ->
  forallb is_segment p = true ->
  is_segment k = true ->
  os_path.split (os_path.join root (p ++ [k])) = (os_path.join root p, k).
Proof.
  intros [Hn Hroot]%andb_true_iff Hp Hk.
  rewrite join_app. simpl.
  destruct (decide (p = [])) as [-> | Hne].
  - simpl. rewrite join_step_segment by done. unfold glue. rewrite Hn. simpl.
    apply orb_true_iff in Hroot as [Ha | He].
    + rewrite endswith_all_char by done. by apply split_root_segment.
    + apply negb_true_iff in He. rewrite He.
      by apply split_snoc_segment.
  - destruct (join_segments_shape root p Hne Hp) as (Hn' & _ & He').
    rewrite join_step_segment by done. unfold glue. rewrite Hn', He'. simpl.
    by apply split_snoc_segment.
Qed.





Lemma stat_join (d : gmap string entry) (root : string) (p : list string) :
  p <> [] ->
  forallb is_segment p = true ->
  stat d (os_path.join root p) = d !! os_path.join root p.
Proof.
  intros Hne Hp. destruct (join_segments_shape root p Hne Hp) as (Hn & Ha & _).
  unfold stat. by rewrite Hn, Ha.
Qed.





(** *** Runs on a host without faults *)










Section Completes.

Variable expanduser : string -> string.


End Completes.


(** * Further properties of the script *)

(** ** Every outcome of a run *)




(** ** The journal of a run on a host without faults *)

Lemma file_events_app (j1 j2 : list event) :
  file_events (j1 ++ j2) = file_events j1 ++ file_events j2.
Proof. apply List.filter_app. Qed.

Lemma file_events_mkdirs (j : list event) :
  Forall is_mkdir j -> file_events j = [].
Proof.
  induction 1 as [|ev j Hev _ IH]; [done |].
  unfold file_events in *. simpl. by destruct ev.
Qed.

Lemma all_written_app (ws1 ws2 : list (string * list byte)) :
  all_written (ws1 ++ ws2) = all_written ws1 ++ all_written ws2.
Proof. apply flat_map_app. Qed.

(** On a host without faults, the export of a leaf opens its files in
    turn, and writes and closes each file it opened. *)
Lemma leaf_run_whole_files (base_dir : string) (leaf : list string * ndarray)
    (w w' : world) (r : outcome unit) :
  quiet w ->
  leaf_run base_dir leaf w w' r ->
  exists j n,
    journal w' = journal w ++ j
    /\ file_events j = all_written (firstn n (exports_of base_dir leaf))
    /\ (r = Ok tt -> n = 2)
    /\ (r <> Ok tt -> n < 2).
Proof.
  intros Hq H. apply quiet_not_faulty in Hq.
  destruct H as
    [w1 e Hm | w1 e Hm _ | w1 c j raw Hm _ Hf _ | w1 e raw d2 Hm _ _
    | w1 c j raw shp d2 Hm _ _ Hf _ | w1 raw shp d2 Hm _ _];
    try done;
    apply makedirs_mkdirs_only in Hm as (d & jm & -> & _ & Hjm & _);
    apply file_events_mkdirs in Hjm; cbn [journal advance].
  - exists jm, 0. split; [done |]. split; [done |]. split; [done | lia].
  - exists jm, 0. split; [done |]. split; [done |]. split; [done | lia].
  - exists (jm ++ written raw (tobytes (snd leaf))), 1.
    split; [symmetry; apply List.app_assoc |].
    rewrite file_events_app, Hjm. split; [done |]. split; [done | lia].
  - eexists (jm ++ _), 2. split; [symmetry; apply List.app_assoc |].
    rewrite file_events_app, Hjm. split; [done |]. split; [done | done].
Qed.

Lemma for_each_whole_files (base_dir : string)
    (l : list (list string * ndarray)) :
  forall w w' r,
    quiet w ->
    for_each l (write_leaf base_dir) w = (w', r) ->
    exists j n,
      journal w' = journal w ++ j
      /\ file_events j = all_written (firstn n (exports base_dir l))
      /\ (r = Ok tt -> n = 2 * length l).
Proof.
  induction l as [|x l IH]; intros w w' r Hq.
  - intros [= <- <-]. exists [], 0. by rewrite List.app_nil_r.
  - intros [(e & H & ->) | (w1 & H & Hrest)]%for_each_cons_inv.
    + apply write_leaf_run in H.
      destruct (leaf_run_whole_files _ _ _ _ _ Hq H)
        as (j & n & Hj & Hf & _ & Hn).
      exists j, n. split; [done |]. split; [| done].
      change (exports base_dir (x :: l))
        with (exports_of base_dir x ++ exports base_dir l).
      rewrite firstn_app.
      replace (n - length (exports_of base_dir x)) with 0
        by (simpl; specialize (Hn ltac:(done)); lia).
      by rewrite List.app_nil_r.
    + assert (Hq1 : quiet w1).
      { intros j ev. rewrite (write_leaf_faults _ _ _ _ _ H). apply Hq. }
      apply write_leaf_run in H.
      destruct (leaf_run_whole_files _ _ _ _ _ Hq H)
        as (j1 & n1 & Hj1 & Hf1 & Hn1 & _).
      specialize (Hn1 eq_refl) as ->.
      destruct (IH _ _ _ Hq1 Hrest) as (j & n & Hj & Hf & Hn).
      exists (j1 ++ j), (2 + n).
      split; [by rewrite Hj, Hj1, List.app_assoc |]. split.
      * rewrite file_events_app, Hf1, Hf.
        change (exports base_dir (x :: l))
          with (exports_of base_dir x ++ exports base_dir l).
        by rewrite <- all_written_app.
      * intros Hr. rewrite (Hn Hr). simpl. lia.
Qed.

(** ** A target that is a regular file *)

(** Where a directory cannot be made and none is, the end of
    [os.makedirs] fails with the error of [os.mkdir], or with that of
    the host. *)
Lemma mkdir_exist_ok_refused (name : string) (w : world) (e : exn) :
  is_directory (disk w) name = false ->
  (if negb (Str.nonempty name) then Some FileNotFoundError
   else match parent_error (disk w) name with
        | Some e => Some e
        | None => if present (disk w) name then Some FileExistsError else None
        end) = Some e ->
  os.mkdir_exist_ok name w = (w, Raise e)
  \/ os.mkdir_exist_ok name w = (w, Raise OSError).
Proof.
  intros Hd He. unfold os.mkdir_exist_ok, try_except, os.mkdir, syscall.
  destruct (faults w (journal w) (EvMkdir name)).
  - right. unfold bind, path_isdir. cbn [is_OSError]. by rewrite Hd.
  - left. rewrite He.
    assert (Hos : is_OSError e = true).
    { destruct (negb (Str.nonempty name)); [by simplify_eq |].
      destruct (parent_error (disk w) name) as [e' |] eqn:E.
      - simplify_eq. by apply parent_error_OSError in E.
      - destruct (present (disk w) name); by simplify_eq. }
    rewrite Hos. unfold bind, path_isdir. by rewrite Hd.
Qed.

(** The tail of a path that does not end with a separator. *)
Lemma rcut_tail_nonempty (c : ascii) (s : string) :
  Str.nonempty s = true ->
  Str.endswith c s = false ->
  Str.nonempty (snd (Str.rcut c s)) = true.
Proof.
  induction s as [|a s IH]; [done |]. intros _. simpl.
  destruct s as [|b s].
  - simpl. by intros ->.
  - intros He. specialize (IH eq_refl He).
    destruct (Str.rcut c (String b s)) as [h t]. simpl in IH.
    destruct (Str.nonempty h); [done |]. by destruct (Ascii.eqb a c).
Qed.

Lemma split_tail_nonempty (p : string) :
  Str.nonempty p = true ->
  Str.endswith os_path.sep p = false ->
  Str.nonempty (snd (os_path.split p)) = true.
Proof.
  intros Hn He. pose proof (rcut_tail_nonempty os_path.sep p Hn He) as H.
  unfold os_path.split. destruct (Str.rcut os_path.sep p) as [h t].
  by destruct (Str.nonempty h && negb (Str.all_char os_path.sep h)).
Qed.

Section UnderFile.

Variable base : string.
Variable content : list byte.
Variable d : gmap string entry.
Hypothesis Hwf : wf_disk d.
Hypothesis Hbase : anchored base = true.
Hypothesis Hfile : stat d base = Some (File content).

Lemma file_lookup : d !! base = Some (File content).
Proof.
  unfold stat in Hfile. destruct (Str.nonempty base); [| done].
  by destruct (Str.all_char os_path.sep base).
Qed.

Lemma file_not_root :
  Str.nonempty base = true /\ Str.endswith os_path.sep base = false.
Proof.
  apply andb_true_iff in Hbase as [Hn Ha]. split; [done |].
  unfold stat in Hfile. rewrite Hn in Hfile.
  destruct (Str.all_char os_path.sep base); [done |].
  by apply negb_true_iff in Ha.
Qed.

(** In a well-formed tree nothing lies under a regular file. *)
Lemma nothing_under_file (p : list string) :
  p <> [] ->
  forallb is_segment p = true ->
  d !! os_path.join base p = None.
Proof.
  induction p as [|k q IH] using rev_ind; [done |]. intros _ Hp.
  pose proof Hp as Hp'. rewrite forallb_app in Hp'.
  apply andb_true_iff in Hp' as [Hq Hk]. cbn [forallb] in Hk.
  rewrite andb_true_r in Hk.
  destruct (d !! os_path.join base (q ++ [k])) as [e |] eqn:E; [| done].
  destruct (Hwf _ _ E) as [_ Hpar]. unfold parent_error in Hpar.
  unfold os_path.dirname in Hpar. rewrite split_join_snoc in Hpar by done.
  cbn [fst] in Hpar.
  destruct (decide (q = [])) as [-> | Hne].
  - change (os_path.join base []) with base in Hpar.
    rewrite Hfile in Hpar. destruct file_not_root as [Hn _].
    by rewrite Hn in Hpar.
  - rewrite stat_join, IH in Hpar by done.
    destruct (join_segments_shape base q Hne Hq) as (Hn & _).
    by rewrite Hn in Hpar.
Qed.

End UnderFile.

(** [os.makedirs] of a path under a regular file fails, and not as if
    the directory existed. *)
Lemma makedirs_under_file (base : string) (content : list byte)
    (q : list string) (w : world) :
  wf_disk (disk w) ->
  anchored base = true ->
  stat (disk w) base = Some (File content) ->
  q <> [] ->
  forallb is_segment q = true ->
  exists e,
    os.makedirs (os_path.join base q) w = (w, Raise e)
    /\ is_OSError e = true /\ e <> FileExistsError.
Proof.
  intros Hwf Hbase Hfile.
  induction q as [|k q IH] using rev_ind; [done |]. intros _ Hp.
  pose proof Hp as Hp'. rewrite forallb_app in Hp'.
  apply andb_true_iff in Hp' as [Hq Hk]. cbn [forallb] in Hk.
  rewrite andb_true_r in Hk.
  pose proof (nothing_under_file base content (disk w) Hwf Hbase Hfile
                (q ++ [k]) ltac:(by destruct q) Hp) as Hnone.
  assert (Hnd : is_directory (disk w) (os_path.join base (q ++ [k])) = false).
  { unfold is_directory.
    by rewrite stat_join, Hnone by (done || by destruct q). }
  rewrite makedirs_unfold, split_join_snoc by done.
  assert (Hkn : Str.nonempty k = true)
    by by apply nonempty_true, is_segment_nonempty.
  rewrite Hkn.
  destruct (decide (q = [])) as [-> | Hne].
  - change (os_path.join base []) with base.
    unfold present at 1. rewrite Hfile. rewrite andb_false_r.
    destruct (mkdir_exist_ok_refused (os_path.join base ([] ++ [k])) w
                NotADirectoryError Hnd) as [-> | ->].
    + destruct (join_segments_shape base ([] ++ [k]) ltac:(done) Hp)
        as (-> & _).
      cbn [negb]. unfold parent_error, os_path.dirname.
      rewrite split_join_snoc by done. cbn [fst].
      change (os_path.join base []) with base. rewrite Hfile.
      by destruct (file_not_root base content (disk w) Hbase Hfile) as [-> _].
    + by exists NotADirectoryError.
    + by exists OSError.
  - destruct (IH Hne Hq) as (e & Hrun & Hos & Hfe).
    destruct (join_segments_shape base q Hne Hq) as (Hn & _).
    rewrite Hn. unfold present. rewrite stat_join by done.
    rewrite (nothing_under_file base content (disk w)) by done.
    rewrite Hkn. cbn [andb negb]. unfold bind, try_except. rewrite Hrun.
    exists e. by destruct e.
Qed.

(** [os.makedirs] of a regular file fails. *)
Lemma makedirs_file (base : string) (content : list byte) (w : world) :
  wf_disk (disk w) ->
  anchored base = true ->
  stat (disk w) base = Some (File content) ->
  exists e, os.makedirs base w = (w, Raise e) /\ is_OSError e = true.
Proof.
  intros Hwf Hbase Hfile.
  destruct (file_not_root base content (disk w) Hbase Hfile) as [Hn He].
  pose proof (file_lookup base content (disk w) Hfile) as Hl.
  destruct (Hwf _ _ Hl) as [_ Hpar].
  assert (Hnd : is_directory (disk w) base = false)
    by (unfold is_directory; by rewrite Hfile).
  assert (Hrun : os.mkdir_exist_ok base w = (w, Raise FileExistsError)
                 \/ os.mkdir_exist_ok base w = (w, Raise OSError)).
  { apply mkdir_exist_ok_refused; [done |].
    rewrite Hn, Hpar. unfold present. by rewrite Hfile. }
  rewrite makedirs_unfold.
  pose proof (split_tail_nonempty base Hn He) as Ht.
  apply parent_error_is_directory in Hpar. unfold os_path.dirname in Hpar.
  destruct (os_path.split base) as [h1 t1]. cbn [fst snd] in *.
  rewrite Ht.
  assert (Hc : Str.nonempty h1 && Str.nonempty t1
               && negb (present (disk w) h1) = false).
  { destruct Hpar as [-> | Hd]; [done |].
    rewrite (is_directory_present _ _ Hd). by rewrite andb_false_r. }
  rewrite Hc. destruct Hrun as [-> | ->]; eauto.
Qed.

(** ** Keys that are absolute paths *)

(** [os.path.join] forgets what stands before an absolute segment. *)
Lemma join_absolute (root : string) (p q : list string) (k : string) :
  Str.startswith os_path.sep k = true ->
  os_path.join root (p ++ k :: q) = os_path.join k q.
Proof.
  intros Hk. rewrite join_app. unfold os_path.join at 1. cbn [fold_left].
  unfold os_path.join_step at 2. by rewrite Hk.
Qed.

(** ** The shape descriptor read back *)

Lemma parse_serialize_shape (array : ndarray) :
  Str.contains "," (dtype array) = false ->
  parse_shape (serialize_shape array) = Some (dtype array, shape array).
Proof.
  intros Hname. unfold parse_shape, serialize_shape.
  rewrite (split_join "," (dtype array :: map str_int (shape array))).
  - by rewrite mapM_int_of_str.
  - done.
  - simpl. rewrite Hname. simpl.
    apply forallb_forall. intros f [d [<- _]]%in_map_iff.
    by rewrite str_int_no_comma.
Qed.

(** X11. Arrays whose dtype names contain no comma and whose shape
    descriptors are equal have the same dtype name and the same shape:
    the descriptor tells dtype and shape apart. *)
Theorem serialize_shape_injective (a b : ndarray) :
  Str.contains "," (dtype a) = false ->
  Str.contains "," (dtype b) = false ->
  serialize_shape a = serialize_shape b ->
  dtype a = dtype b /\ shape a = shape b.
Proof.
  intros Ha Hb Heq.
  pose proof (parse_serialize_shape a Ha) as Pa.
  pose proof (parse_serialize_shape b Hb) as Pb.
  rewrite Heq, Pb in Pa. by injection Pa as -> ->.
Qed.

(** Without the condition on the names, two arrays of different dtype
    and shape have the same descriptor. *)
Example serialize_shape_ambiguous :
  serialize_shape (Ndarray "a,1" [] [])
  = serialize_shape (Ndarray "a" [1%N] []).
Proof. reflexivity. Qed.

(** ** Directories on a POSIX host *)

Lemma expanduser_absolute (home path : string) :
  Str.startswith os_path.sep path = true -> posix.expanduser home path = path.
Proof.
  destruct path as [|a path]; [done |]. simpl. intros Ha.
  apply ascii_eqb_true in Ha as ->. done.
Qed.

Lemma startswith_app (c : ascii) (s t : string) :
  Str.startswith c s = true -> Str.startswith c (s +:+ t) = true.
Proof. by destruct s. Qed.

Lemma normpath_absolute (path : string) :
  Str.startswith os_path.sep path = true ->
  Str.startswith os_path.sep (posix.normpath path) = true.
Proof.
  destruct path as [|a path]; [done |]. simpl. intros Ha.
  apply ascii_eqb_true in Ha as ->.
  unfold posix.normpath. cbn [Str.nonempty negb].
  set (comps := fold_left _ _ _).
  destruct path as [|b path]; [by destruct (Str.join "/" comps) |].
  destruct (Ascii.eqb b "/") eqn:Eb.
  - apply ascii_eqb_true in Eb as ->.
    destruct path as [|c path]; [by destruct (Str.join "/" comps) |].
    destruct (Ascii.eqb c "/") eqn:Ec.
    + apply ascii_eqb_true in Ec as ->. by destruct (Str.join "/" comps).
    + apply ascii_eqb_false in Ec.
      destruct c as [[] [] [] [] [] [] [] []]; try done.
  - apply ascii_eqb_false in Eb.
    destruct b as [[] [] [] [] [] [] [] []]; try done.
Qed.

Lemma abspath_absolute (cwd path : string) :
  Str.startswith os_path.sep cwd = true ->
  Str.startswith os_path.sep (posix.abspath cwd path) = true.
Proof.
  intros Hcwd. unfold posix.abspath.
  destruct (Str.startswith os_path.sep path) eqn:Hp.
  - by apply normpath_absolute.
  - apply normpath_absolute. unfold os_path.join. cbn [fold_left].
    unfold os_path.join_step. rewrite Hp.
    destruct (negb (Str.nonempty cwd) || Str.endswith os_path.sep cwd);
      by apply startswith_app.
Qed.

(** X15. On a POSIX host whose working directory is an absolute path,
    the source and the target directory [main] resolves are absolute
    paths, whatever the arguments; so the home expansion that
    [read_parameter] and [write_params] apply once more changes
    nothing: the checkpoint is read from the source directory that was
    printed, and the files are written under the target directory that
    was printed. *)
Theorem resolved_directories_absolute (home cwd : string) (args : namespace) :
  Str.startswith os_path.sep cwd = true ->
  let source_dir :=
    resolve_source_dir (posix.expanduser home) (posix.abspath cwd) args in
  let target_dir :=
    resolve_target_dir (posix.expanduser home) (posix.abspath cwd) args in
  Str.startswith os_path.sep source_dir = true
  /\ Str.startswith os_path.sep target_dir = true
  /\ posix.expanduser home source_dir = source_dir
  /\ posix.expanduser home target_dir = target_dir.
Proof.
  intros Hcwd source_dir target_dir.
  assert (Hs : Str.startswith os_path.sep source_dir = true)
    by by apply abspath_absolute.
  assert (Ht : Str.startswith os_path.sep target_dir = true).
  { unfold target_dir, resolve_target_dir.
    destruct (truthy (args_target_dir args)); [by apply abspath_absolute |].
    fold source_dir. unfold os_path.join. cbn [fold_left].
    unfold os_path.join_step. cbn [Str.startswith Ascii.eqb].
    change (Ascii.eqb "r" os_path.sep) with false. cbv iota.
    destruct (negb (Str.nonempty source_dir)
              || Str.endswith os_path.sep source_dir);
      by apply startswith_app. }
  by rewrite !expanduser_absolute.
Qed.

(** ** The files of a run that reached its end *)

(** The files of the leaves of a tree with distinct stems, after a run
    that reached its end. *)
Lemma for_each_exported (base_dir : string) (params : pytree)
    (w w' : world) :
  unique_keys params = true ->
  keys_all is_segment params = true ->
  for_each (flatten_params params) (write_leaf base_dir) w = (w', Ok tt) ->
  every_leaf_exported base_dir params (disk w').
Proof.
  intros Hu Hk Hrun path array Hin.
  assert (Hnodup : NoDup (map fst (exports base_dir (flatten_params params)))).
  { apply NoDup_exports. rewrite flatten_params_eq_leaves.
    by apply NoDup_stems. }
  pose proof (for_each_disk _ _ _ _ Hrun) as Hdisk.
  assert (Hfiles : forall q data,
    In (q, data) (exports_of base_dir (path, array)) ->
    disk w' !! q = Some (File data)).
  { intros q data Hq. specialize (Hdisk q).
    rewrite (last_write_NoDup _ q data) in Hdisk; [done | done |].
    apply in_flat_map. by exists (path, array). }
  split; apply Hfiles; simpl; auto.
Qed.

(** ** The runs of the script *)

Section Runs.

Variable expanduser : string -> string.
Variable abspath : string -> string.
Variable load_and_format_params :
  string -> gmap string entry -> outcome pytree.




(** X5. On a host without faults, whatever the outcome of a run of
    [write_params], its operations on files are, in the order of the
    leaves and for each leaf the [.raw] file before the [.shape] file:
    the file is opened, written with one write of its whole content, and
    closed before the next is opened.  The run stops after some number
    of files, and after the two files of every leaf when it reaches its
    end. *)
Theorem write_params_whole_files (params : pytree) (base_dir : string)
    (w w' : world) (r : outcome unit) :
  quiet w ->
  write_params expanduser params base_dir w = (w', r) ->
  exists j n,
    journal w' = journal w ++ j
    /\ file_events j
       = all_written
           (firstn n (exports (expanduser base_dir) (flatten_params params)))
    /\ (r = Ok tt -> n = 2 * num_leaves params).
Proof.
  intros Hq Hrun. unfold write_params in Hrun.
  destruct (for_each_whole_files _ _ _ _ _ Hq Hrun) as (j & n & Hj & Hf & Hn).
  exists j, n. split; [done |]. split; [done |]. intros Hr.
  by rewrite (Hn Hr), flatten_params_eq_leaves, length_leaves.
Qed.

(** X7. When the target of [write_params] is a regular file of a
    well-formed disk, and the tree is a dictionary with at least one
    leaf whose keys are segments (not empty, and without a separator)
    without NUL byte, at most [makedirs_levels] to a leaf, the run
    fails with an [OSError] at the first leaf, and changes nothing: no
    directory is made and no file is opened. *)
Theorem write_params_target_is_file (items : list (string * pytree))
    (base_dir : string) (content : list byte) (w : world) :
  wf_disk (disk w) ->
  anchored (expanduser base_dir) = true ->
  no_nul (expanduser base_dir) = true ->
  stat (disk w) (expanduser base_dir) = Some (File content) ->
  keys_all is_segment (Dict items) = true ->
  keys_all no_nul (Dict items) = true ->
  (forall path array,
     In (path, array) (flatten_params (Dict items)) ->
     length path <= makedirs_levels) ->
  num_leaves (Dict items) <> 0 ->
  exists e,
    write_params expanduser (Dict items) base_dir w = (w, Raise e)
    /\ is_OSError e = true.
Proof.
  intros Hwf Hbase _ Hfile Hkeys _ _ Hleaves. unfold write_params.
  rewrite flatten_params_eq_leaves.
  pose proof (length_leaves (Dict items)) as Hlen.
  destruct (leaves (Dict items)) as [|[path array] l] eqn:El;
    [done |].
  assert (Hin : In (path, array) (leaves (Dict items)))
    by (rewrite El; by left).
  pose proof (in_leaves_keys_all _ _ Hkeys _ _ Hin) as Hp.
  assert (Hne : path <> []).
  { simpl in Hin. apply in_flat_map in Hin as [[k child] [_ Hin]].
    by apply in_map_iff in Hin as [[rest array'] [[= <- <-] _]]. }
  destruct (exists_last Hne) as (q & k & ->).
  pose proof Hp as Hp'. rewrite forallb_app in Hp'.
  apply andb_true_iff in Hp' as [Hq Hk]. cbn [forallb] in Hk.
  rewrite andb_true_r in Hk.
  assert (Hm : exists e,
    os.makedirs
      (os_path.dirname (os_path.join (expanduser base_dir) (q ++ [k]))) w
    = (w, Raise e) /\ is_OSError e = true).
  { unfold os_path.dirname. rewrite split_join_snoc by done. cbn [fst].
    destruct (decide (q = [])) as [-> | Hqne].
    - by apply (makedirs_file _ content).
    - destruct (makedirs_under_file (expanduser base_dir) content q w)
        as (e & ? & ? & _); eauto. }
  destruct Hm as (e & Hm & Hos). exists e. split; [| done].
  cbn [for_each]. unfold bind at 1, write_leaf, bind at 1. by rewrite Hm.
Qed.

(** X8. On a tree without leaves (an empty dictionary, or dictionaries
    that hold only such dictionaries) [write_params] does nothing at
    all: it reaches its end, and not even the target directory is
    made. *)
Theorem write_params_no_leaves (params : pytree) (base_dir : string)
    (w : world) :
  num_leaves params = 0 ->
  write_params expanduser params base_dir w = (w, Ok tt).
Proof.
  intros H. unfold write_params.
  pose proof (length_leaves params) as Hlen. rewrite H in Hlen.
  rewrite flatten_params_eq_leaves.
  by destruct (leaves params).
Qed.

(** X12. The script as a whole exports the tree the loader returned.
    When the loader returns, for the resolved source directory, a tree
    whose dictionaries do not repeat a key and whose keys are plain
    names, and [main] reaches its end, every leaf of that tree has its
    two files under the resolved target directory: the [.raw] file with
    the bytes of the array and the [.shape] file with its shape
    descriptor. *)
Theorem main_exports (args : namespace) (params : pytree) (w w' : world) :
  load_and_format_params
    (expanduser (resolve_source_dir expanduser abspath args)) (disk w)
  = Ok params ->
  unique_keys params = true ->
  keys_all plain_name params = true ->
  main expanduser abspath load_and_format_params args w = (w', Ok tt) ->
  every_leaf_exported
    (expanduser (resolve_target_dir expanduser abspath args)) params
    (disk w').
Proof.
  intros Hload Hu Hk.
  unfold main, read_parameter, bind, print, jax_config_update_platform.
  cbn [disk journal faults stdout jax_platform_name].
  rewrite Hload. unfold write_params. intros Hrun.
  eapply for_each_exported; [exact Hu | | exact Hrun].
  by apply (keys_all_impl plain_name), Hk; apply plain_name_segment.
Qed.

End Runs.

(** X9. A key that starts with a separator takes the leaf out of the
    target directory: [os.path.join] drops the base directory and the
    keys before it, so the files of the leaf, and the directories made
    for them, are those of the key and the keys after it, the same
    whatever the base directory is. *)
Theorem absolute_key_leaves_target (base_dir : string) (p q : list string)
    (k : string) (array : ndarray) (w : world) :
  Str.startswith os_path.sep k = true ->
  exports_of base_dir (p ++ k :: q, array) = exports_of k (q, array)
  /\ write_leaf base_dir (p ++ k :: q, array) w = write_leaf k (q, array) w.
Proof.
  intros Hk. unfold exports_of, write_leaf. cbn [fst snd].
  by rewrite join_absolute.
Qed.

(** X10. The layout of the output: when the keys of the tree are
    segments, the stem of the leaf under the keys [q ++ [k]] is the
    root, a separator unless the root ends with one, and the keys with
    a separator between them; and, under a root that is an anchor, the
    directory [write_params] makes for the leaf is the stem of [q], the
    keys but the last. *)
Theorem stem_layout (params : pytree) (root : string) (q : list string)
    (k : string) (array : ndarray) :
  keys_all is_segment params = true ->
  In (q ++ [k], array) (flatten_params params) ->
  os_path.join root (q ++ [k])
  = root +:+ glue root +:+ Str.join "/" (q ++ [k])
  /\ (anchored root = true ->
      os_path.dirname (os_path.join root (q ++ [k])) = os_path.join root q).
Proof.
  intros Hkeys Hin. rewrite flatten_params_eq_leaves in Hin.
  pose proof (in_leaves_keys_all _ params Hkeys _ _ Hin) as Hp.
  split.
  - apply join_segments; [by destruct q | done].
  - intros Hroot. rewrite forallb_app in Hp.
    apply andb_true_iff in Hp as [Hq Hk]. cbn [forallb] in Hk.
    rewrite andb_true_r in Hk. unfold os_path.dirname.
    by rewrite split_join_snoc.
Qed.

(** ** Running again after a failure *)








Section Rerun.

Variable expanduser : string -> string.


End Rerun.

(** ** Instances *)

(** A run over a disk that holds files, stopped by the host at the
    second of three leaves: the file of the user and the files of the
    first leaf are on the disk; the raw file of the second leaf was
    written and its shape file is the old one; the files of the third
    leaf are as they were. *)
Example stocked_run :
  let run := write_params (posix.expanduser "/root") three_leaf_tree "/out"
               stocked_world in
  snd run = Raise OSError
  /\ disk (fst run) !! "/out/notes.txt" = Some (File [x68; x69])
  /\ disk (fst run) !! "/out/a.raw" = Some (File [x01])
  /\ disk (fst run) !! "/out/a.shape" = Some (File (encode "int8,1"))
  /\ disk (fst run) !! "/out/b.raw" = Some (File [x02; x03])
  /\ disk (fst run) !! "/out/b.shape" = Some (File (encode "int8,7"))
  /\ disk (fst run) !! "/out/c.raw" = Some (File [x09])
  /\ disk (fst run) !! "/out/c.shape" = None.
Proof. intros run. repeat split; vm_compute; reflexivity. Qed.




Lemma write_params_whole_files_witness :
  let run := write_params (posix.expanduser "/root") scenario_tree "/out"
               fresh_world in
  exists j n,
    journal (fst run) = journal fresh_world ++ j
    /\ file_events j
       = all_written (firstn n (exports "/out" (flatten_params scenario_tree)))
    /\ (snd run = Ok tt -> n = 2 * num_leaves scenario_tree).
Proof.
  intros run.
  apply (write_params_whole_files (posix.expanduser "/root") scenario_tree
           "/out" fresh_world (fst run) (snd run)).
  - intros j ev. reflexivity.
  - apply surjective_pairing.
Defined.

Lemma wf_disk_occupied : wf_disk (disk occupied_world).
Proof.
  unfold occupied_world. cbn [disk].
  intros path e [<- _]%lookup_singleton_Some. split; reflexivity.
Qed.

Lemma write_params_target_is_file_witness :
  exists e,
    write_params (posix.expanduser "/root") scenario_tree "/out"
      occupied_world = (occupied_world, Raise e)
    /\ is_OSError e = true.
Proof.
  apply (write_params_target_is_file (posix.expanduser "/root") _ "/out" []
           occupied_world).
  - apply wf_disk_occupied.
  - reflexivity.
  - reflexivity.
  - reflexivity.
  - reflexivity.
  - reflexivity.
  - intros path array [[= <- <-] | []]. vm_compute. lia.
  - discriminate.
Defined.

Lemma write_params_no_leaves_witness :
  write_params (posix.expanduser "/root") hollow_tree "/out" fresh_world
  = (fresh_world, Ok tt).
Proof.
  apply (write_params_no_leaves (posix.expanduser "/root") hollow_tree).
  reflexivity.
Defined.

Lemma absolute_key_leaves_target_witness :
  exports_of "/out" (["layer0"; "/etc"; "w"], Ndarray "int8" [] [x01])
  = exports_of "/etc" (["w"], Ndarray "int8" [] [x01])
  /\ write_leaf "/out" (["layer0"; "/etc"; "w"], Ndarray "int8" [] [x01])
       fresh_world
     = write_leaf "/etc" (["w"], Ndarray "int8" [] [x01]) fresh_world.
Proof.
  apply (absolute_key_leaves_target "/out" ["layer0"] ["w"] "/etc").
  reflexivity.
Defined.

Lemma stem_layout_witness :
  os_path.join "/out" (["layer0"] ++ ["w"])
  = "/out" +:+ glue "/out" +:+ Str.join "/" (["layer0"] ++ ["w"])
  /\ (anchored "/out" = true ->
      os_path.dirname (os_path.join "/out" (["layer0"] ++ ["w"]))
      = os_path.join "/out" ["layer0"]).
Proof.
  eapply (stem_layout scenario_tree "/out" ["layer0"] "w").
  - reflexivity.
  - simpl. left. reflexivity.
Defined.

Lemma serialize_shape_injective_witness :
  dtype (Ndarray "float32" [2%N; 3%N] [])
  = dtype (Ndarray "float32" [2%N; 3%N] [x00])
  /\ shape (Ndarray "float32" [2%N; 3%N] [])
     = shape (Ndarray "float32" [2%N; 3%N] [x00]).
Proof. apply serialize_shape_injective; reflexivity. Defined.

Lemma main_exports_witness :
  let w' := fst (main (posix.expanduser "/root") (posix.abspath "/work")
                   scenario_checkpoint (Namespace "~/ckpt" None)
                   fresh_world) in
  every_leaf_exported "/root/ckpt/raw" scenario_tree (disk w').
Proof.
  intros w'.
  apply (main_exports (posix.expanduser "/root") (posix.abspath "/work")
           scenario_checkpoint (Namespace "~/ckpt" None) scenario_tree
           fresh_world w').
  - reflexivity.
  - reflexivity.
  - reflexivity.
  - vm_compute. reflexivity.
Defined.

Lemma resolved_directories_absolute_witness :
  let args := Namespace "~/ckpt" (Some "out/../raw2") in
  let source_dir :=
    resolve_source_dir (posix.expanduser "/home/u") (posix.abspath "/work")
      args in
  let target_dir :=
    resolve_target_dir (posix.expanduser "/home/u") (posix.abspath "/work")
      args in
  Str.startswith os_path.sep source_dir = true
  /\ Str.startswith os_path.sep target_dir = true
  /\ posix.expanduser "/home/u" source_dir = source_dir
  /\ posix.expanduser "/home/u" target_dir = target_dir.
Proof.
  apply (resolved_directories_absolute "/home/u" "/work"). reflexivity.
Defined.

